(** * PCG32 (pcg32.h): a shallow embedding and its verification

    The generator of [struct pcg32] is two unsigned 64-bit words.  Every
    fixed-width integer of the C++ source is a [Z] here and every
    wrap-around of the source is written out ([u64], [u32]).  The
    operations are embedded in the order of the header: [seed],
    [nextUInt], the bounded [nextUInt], [nextFloat], [nextDouble],
    [advance], [shuffle] and the private [pcg_advance_lcg_64]. *)

From Stdlib Require Import ZArith Lia Bool.
From Stdlib Require Import Floats.SpecFloat.
From stdpp Require Import base list.
From Equations Require Import Equations.

Local Open Scope Z_scope.

(** ** Fixed-width unsigned arithmetic *)

Module Word.

(** Conversion to [uint64_t] and to [uint32_t]. *)
Definition u64 (x : Z) : Z := x mod 2 ^ 64.
Definition u32 (x : Z) : Z := x mod 2 ^ 32.

Definition is_u64 (x : Z) : Prop := 0 <= x < 2 ^ 64.
Definition is_u32 (x : Z) : Prop := 0 <= x < 2 ^ 32.

(** Unary minus on a [uint32_t]. *)
Definition neg32 (x : Z) : Z := u32 (- x).

(** Left shift of a [uint32_t]: the bits shifted out are lost. *)
Definition shl32 (x s : Z) : Z := u32 (Z.shiftl x s).

(** Left shift of a [uint64_t]. *)
Definition shl64 (x s : Z) : Z := u64 (Z.shiftl x s).

End Word.
Import Word.

(** ** Results of code that can trap or loop *)

(** Integer division by zero and an access outside a sequence have no
    value in C++; they are the two faults of this model.  [OutOfFuel]
    is not a behaviour of the program: it says that the retry loop of
    the bounded draw was cut after the given number of rounds. *)
Inductive fault : Set := DivisionByZero | OutOfRange.

Inductive outcome (A : Type) : Type :=
| Ok (a : A)
| Fault (f : fault)
| OutOfFuel.
Arguments Ok {A} a.
Arguments Fault {A} f.
Arguments OutOfFuel {A}.

#[global] Instance outcome_ret : MRet outcome := fun A a => Ok a.

#[global] Instance outcome_bind : MBind outcome := fun A B k m =>
  match m with
  | Ok a => k a
  | Fault f => Fault f
  | OutOfFuel => OutOfFuel
  end.

(** [a % b] on unsigned operands. *)
Definition umod (a b : Z) : outcome Z :=
  if b =? 0 then Fault DivisionByZero else Ok (a mod b).

(** ** The generator *)

Record pcg32 : Set := mk_pcg32 { state : Z; inc : Z }.

Definition PCG32_DEFAULT_STATE : Z := 0x853c49e6748fea9b.
Definition PCG32_DEFAULT_STREAM : Z := 0xda3e39cb94b95bdb.
Definition PCG32_MULT : Z := 6364136223846793005.

(** The two fields are [uint64_t]. *)
Definition wf (g : pcg32) : Prop := is_u64 (state g) /\ is_u64 (inc g).

(** [pcg32::pcg32(state, inc)] with its default arguments. *)
Definition pcg32_new (st sq : Z) : pcg32 := {| state := st; inc := sq |}.
Definition pcg32_default : pcg32 := pcg32_new PCG32_DEFAULT_STATE PCG32_DEFAULT_STREAM.

(** [uint32_t pcg32::nextUInt()]: the value returned and the generator
    left behind. *)
Definition nextUInt (g : pcg32) : Z * pcg32 :=
  let oldstate := state g in
  let g' := {| state := u64 (oldstate * PCG32_MULT + inc g); inc := inc g |} in
  let xorshifted := u32 (Z.shiftr (Z.lxor (Z.shiftr oldstate 18) oldstate) 27) in
  let rot := u32 (Z.shiftr oldstate 59) in
  (Z.lor (Z.shiftr xorshifted rot) (shl32 xorshifted (Z.land (neg32 rot) 31)), g').

(** The generator after one call of [nextUInt], and the value drawn. *)
Definition step (g : pcg32) : pcg32 := snd (nextUInt g).
Definition output (g : pcg32) : Z := fst (nextUInt g).

(** [void pcg32::seed(initstate, initseq)]. *)
Definition seed (initstate initseq : Z) (g : pcg32) : pcg32 :=
  let g1 := {| state := 0; inc := inc g |} in
  let g2 := {| state := state g1; inc := Z.lor (shl64 initseq 1) 1 |} in
  let g3 := snd (nextUInt g2) in
  let g4 := {| state := u64 (state g3 + initstate); inc := inc g3 |} in
  snd (nextUInt g4).

(** [uint32_t threshold = -bound % bound;] *)
Definition threshold (bound : Z) : outcome Z := umod (neg32 bound) bound.

(** The [for (;;)] loop of the bounded draw, cut after [fuel] rounds. *)
Fixpoint nextUInt_loop (fuel : nat) (thr bound : Z) (g : pcg32)
  : outcome (Z * pcg32) :=
  match fuel with
  | O => OutOfFuel
  | S fuel' =>
      let (r, g') := nextUInt g in
      if thr <=? r
      then q ← umod r bound; Ok (q, g')
      else nextUInt_loop fuel' thr bound g'
  end.

(** [uint32_t pcg32::nextUInt(uint32_t bound)]. *)
Definition nextUInt_bounded (fuel : nat) (bound : Z) (g : pcg32)
  : outcome (Z * pcg32) :=
  thr ← threshold bound;
  nextUInt_loop fuel thr bound g.

(** ** Floating-point draws

    [float] is IEEE 754 binary32 and [double] is binary64, with the
    default rounding to nearest, ties to even. *)

Module Float.

Definition prec32 : Z := 24.
Definition emax32 : Z := 128.
Definition prec64 : Z := 53.
Definition emax64 : Z := 1024.

(** The conversions [(float) n] and [(double) n] of an unsigned integer. *)
Definition float_of_uint (n : Z) : spec_float :=
  binary_normalize prec32 emax32 n 0 false.
Definition double_of_uint (n : Z) : spec_float :=
  binary_normalize prec64 emax64 n 0 false.

(** [std::ldexp(float, int)] and [std::ldexp(double, int)]. *)
Definition ldexpf (x : spec_float) (e : Z) : spec_float :=
  SFldexp prec32 emax32 x e.
Definition ldexp (x : spec_float) (e : Z) : spec_float :=
  SFldexp prec64 emax64 x e.

Definition zero : spec_float := S754_zero false.
Definition onef : spec_float := SFone prec32 emax32.
Definition one : spec_float := SFone prec64 emax64.

(** [0.0 <= x < 1.0] in the two formats. *)
Definition in_unit_f (x : spec_float) : bool := SFleb zero x && SFltb x onef.
Definition in_unit (x : spec_float) : bool := SFleb zero x && SFltb x one.

End Float.

(** [float pcg32::nextFloat()]. *)
Definition nextFloat (g : pcg32) : spec_float * pcg32 :=
  let (r, g') := nextUInt g in
  (Float.ldexpf (Float.float_of_uint r) (-32), g').

(** [double pcg32::nextDouble()]. *)
Definition nextDouble (g : pcg32) : spec_float * pcg32 :=
  let (r, g') := nextUInt g in
  (Float.ldexp (Float.double_of_uint r) (-32), g').

(** ** Jump-ahead *)

(** The number of binary digits of a positive [delta]: what the loop
    of [pcg_advance_lcg_64] consumes, one digit a round. *)
Definition bitlen (delta : Z) : nat :=
  match delta with
  | Zpos p => Pos.size_nat p
  | _ => O
  end.

(** The [while (delta > 0)] loop of [pcg_advance_lcg_64]: it returns the
    final [(acc_mult, acc_plus)]. *)
Equations? advance_loop (delta cur_mult cur_plus acc_mult acc_plus : Z) : Z * Z
  by wf (bitlen delta) lt :=
  advance_loop delta cur_mult cur_plus acc_mult acc_plus with decide (0 < delta) => {
    | left _ =>
        if negb (Z.land delta 1 =? 0)
        then advance_loop (delta / 2)
               (u64 (cur_mult * cur_mult)) (u64 ((cur_mult + 1) * cur_plus))
               (u64 (acc_mult * cur_mult)) (u64 (acc_plus * cur_mult + cur_plus))
        else advance_loop (delta / 2)
               (u64 (cur_mult * cur_mult)) (u64 ((cur_mult + 1) * cur_plus))
               acc_mult acc_plus
    | right _ => (acc_mult, acc_plus) }.
Proof.
  all: destruct delta as [| p | p]; try lia.
  all: rewrite <- Z.div2_div; destruct p; cbn; lia.
Qed.

(** [static uint64_t pcg_advance_lcg_64(state, delta, cur_mult, cur_plus)]. *)
Definition pcg_advance_lcg_64 (st delta cur_mult cur_plus : Z) : Z :=
  let (acc_mult, acc_plus) := advance_loop delta cur_mult cur_plus 1 0 in
  u64 (acc_mult * st + acc_plus).

(** [void pcg32::advance(int64_t delta)]; [(uint64_t) delta] is [u64 delta]. *)
Definition advance (delta : Z) (g : pcg32) : pcg32 :=
  {| state := pcg_advance_lcg_64 (state g) (u64 delta) PCG32_MULT (inc g);
     inc := inc g |}.

(** ** Shuffle *)

(** [std::iter_swap(begin + i, begin + j)]; an iterator outside the
    sequence is a fault. *)
Definition iter_swap {A : Type} (l : list A) (i j : nat) : outcome (list A) :=
  match l !! i, l !! j with
  | Some a, Some b => Ok (<[j := a]> (<[i := b]> l))
  | _, _ => Fault OutOfRange
  end.

(** The loop of [shuffle] with [it - begin = i]: it runs while [it > begin].
    Each bounded draw has [fuel] rounds. *)
Fixpoint shuffle_loop {A : Type} (fuel : nat) (i : nat) (g : pcg32) (l : list A)
  : outcome (pcg32 * list A) :=
  match i with
  | O => Ok (g, l)
  | S i' =>
      '(r, g') ← nextUInt_bounded fuel (u32 (Z.of_nat i + 1)) g;
      l' ← iter_swap l i (Z.to_nat r);
      shuffle_loop fuel i' g' l'
  end.

(** [template <typename Iterator> void pcg32::shuffle(begin, end)] on the
    sequence [l]: [it] starts at [end - 1].  On the empty sequence that
    iterator lies before [begin], where C++ defines neither the
    subtraction nor the comparison [it > begin]; on the null storage of
    an empty [std::vector] the comparison holds and the round for
    [it - begin = -1] is run: its bound is [(uint32_t)(-1 + 1)], and its
    swap would be outside the sequence. *)
Definition shuffle {A : Type} (fuel : nat) (g : pcg32) (l : list A)
  : outcome (pcg32 * list A) :=
  match l with
  | [] =>
      '(_, _) ← nextUInt_bounded fuel (u32 (-1 + 1)) g;
      Fault OutOfRange
  | _ :: _ => shuffle_loop fuel (length l - 1) g l
  end.

(** ** Operations as data

    A caller's sequence of draws, jumps and shuffles, to state what no
    sequence of them can change. *)
Inductive operation (A : Type) : Type :=
| OpNextUInt
| OpNextUIntBounded (bound : Z)
| OpNextFloat
| OpNextDouble
| OpAdvance (delta : Z)
| OpShuffle (l : list A).
Arguments OpNextUInt {A}.
Arguments OpNextUIntBounded {A} bound.
Arguments OpNextFloat {A}.
Arguments OpNextDouble {A}.
Arguments OpAdvance {A} delta.
Arguments OpShuffle {A} l.

Definition run_op {A : Type} (fuel : nat) (o : operation A) (g : pcg32)
  : outcome pcg32 :=
  match o with
  | OpNextUInt => Ok (snd (nextUInt g))
  | OpNextUIntBounded bound => '(_, g') ← nextUInt_bounded fuel bound g; Ok g'
  | OpNextFloat => Ok (snd (nextFloat g))
  | OpNextDouble => Ok (snd (nextDouble g))
  | OpAdvance delta => Ok (advance delta g)
  | OpShuffle l => '(g', _) ← shuffle fuel g l; Ok g'
  end.

Fixpoint run_ops {A : Type} (fuel : nat) (os : list (operation A)) (g : pcg32)
  : outcome pcg32 :=
  match os with
  | [] => Ok g
  | o :: os' => g' ← run_op fuel o g; run_ops fuel os' g'
  end.

(** ** Definitions that follow the specification *)

(** Rotation of a 32-bit word to the right, bit by bit: bit [i] of the
    result is bit [(i + r) mod 32] of [x]. *)
Definition is_rotr32 (x r y : Z) : Prop :=
  is_u32 y /\ forall i, 0 <= i < 32 -> Z.testbit y i = Z.testbit x ((i + r) mod 32).

(** The five steps of seeding as the specification lists them. *)
Definition seed_steps (init_state init_sequence : Z) : pcg32 :=
  let s1 := 0 in
  let increment := Z.lor (Z.shiftl init_sequence 1 mod 2 ^ 64) 1 in
  let s3 := (s1 * 6364136223846793005 + increment) mod 2 ^ 64 in
  let s4 := (s3 + init_state) mod 2 ^ 64 in
  let s5 := (s4 * 6364136223846793005 + increment) mod 2 ^ 64 in
  {| state := s5; inc := increment |}.




(** ** Definitions for the proofs *)

(** The raw draw number [k] (from [0]) of a generator. *)
Definition draw (k : nat) (g : pcg32) : Z := output (Nat.iter k step g).

(** One transition with multiplier [m] and increment [p]. *)
Definition lcg (m p x : Z) : Z := u64 (x * m + p).

(** [1 + a + ... + a ^ (n - 1)]. *)
Fixpoint geo (a : Z) (n : nat) : Z :=
  match n with
  | O => 0
  | S k => a * geo a k + 1
  end.

(** [n] transitions over the integers, without reduction. *)
Definition affine (a c : Z) (n : nat) (x : Z) : Z := x * a ^ Z.of_nat n + c * geo a n.

(** A state whose output is the largest 32-bit value. *)
Definition top_state : Z := 2 ^ 59 - 2 ^ 41.

(** Equality with the [float] [1.0], as a test. *)
Definition is_onef (x : spec_float) : bool :=
  match x with
  | S754_finite false m e => (m =? 8388608)%positive && (e =? -23)
  | _ => false
  end.

(** ** The embedding on known values *)

(** The reference output of PCG32 for [seed(42, 54)]. *)
Example known_answer :
  let g0 := seed 42 54 pcg32_default in
  map (fun k => output (Nat.iter k step g0)) (seq 0 6)
  = [0xa15c02b7; 0x7b47f409; 0xba1d3330; 0x83d2f293; 0xbfa4784b; 0xcbed606e].
Proof. reflexivity. Qed.

Example advance_5 : advance 5 pcg32_default = Nat.iter 5 step pcg32_default.
Proof. reflexivity. Qed.

Example advance_back_5 :
  advance (-5) (Nat.iter 5 step pcg32_default) = pcg32_default.
Proof. vm_compute. reflexivity. Qed.

Example nextUInt_bounded_6 :
  nextUInt_bounded 4 6 pcg32_default = Ok (355248013 mod 6, step pcg32_default).
Proof. reflexivity. Qed.

Example shuffle_5 :
  exists g', shuffle 4 pcg32_default [1; 2; 3; 4; 5] = Ok (g', [3; 1; 2; 5; 4]).
Proof. eexists. vm_compute. reflexivity. Qed.

Example nextFloat_default :
  fst (nextFloat pcg32_default) = S754_finite false 11101500 (-27).
Proof. reflexivity. Qed.

(** ** Proofs: word arithmetic *)

Ltac word_unfold := unfold u64, u32, neg32, shl32, shl64, is_u64, is_u32 in *.

Lemma u64_range x : is_u64 (u64 x).
Proof. word_unfold. apply Z.mod_pos_bound. lia. Qed.

Lemma u32_range x : is_u32 (u32 x).
Proof. word_unfold. apply Z.mod_pos_bound. lia. Qed.

Lemma u64_small x : is_u64 x -> u64 x = x.
Proof. word_unfold. intros. apply Z.mod_small. lia. Qed.

Lemma u32_small x : is_u32 x -> u32 x = x.
Proof. word_unfold. intros. apply Z.mod_small. lia. Qed.

Lemma land_31 x : Z.land x 31 = x mod 32.
Proof. change 31 with (Z.ones 5). rewrite Z.land_ones by lia. reflexivity. Qed.

Lemma neg32_land_31 r : 0 <= r < 32 ->
  Z.land (neg32 r) 31 = (32 - r) mod 32 /\ Z.land (- r) 31 = (32 - r) mod 32.
Proof.
  intros Hr. rewrite !land_31. unfold neg32, u32.
  change (2 ^ 32) with (32 * 2 ^ 27).
  rewrite Z.rem_mul_r by lia.
  split.
  - rewrite Z.mul_comm, Z.mod_add by lia. rewrite Z.mod_mod by lia.
    replace (32 - r) with (- r + 1 * 32) by lia. now rewrite Z.mod_add by lia.
  - replace (32 - r) with (- r + 1 * 32) by lia. now rewrite Z.mod_add by lia.
Qed.

Lemma shiftr_59_range x : is_u64 x -> 0 <= Z.shiftr x 59 < 32.
Proof.
  word_unfold. intros Hx. rewrite Z.shiftr_div_pow2 by lia.
  split; [apply Z.div_pos; lia | apply Z.div_lt_upper_bound; lia].
Qed.

(** The expression of [nextUInt] rotates. *)
Lemma rotr32_formula x r : is_u32 x -> 0 <= r < 32 ->
  is_rotr32 x r (Z.lor (Z.shiftr x r) (shl32 x (Z.land (neg32 r) 31))).
Proof.
  intros Hx Hr. destruct (neg32_land_31 r Hr) as [-> _].
  assert (Hhigh : forall j, 32 <= j -> Z.testbit x j = false).
  { intros j Hj. rewrite <- (u32_small x Hx). unfold u32.
    apply Z.mod_pow2_bits_high. lia. }
  assert (Hbits : forall i, 0 <= i < 32 ->
    Z.testbit (Z.lor (Z.shiftr x r) (shl32 x ((32 - r) mod 32))) i
    = Z.testbit x ((i + r) mod 32)).
  { intros i Hi. unfold shl32, u32.
    rewrite Z.lor_spec, Z.shiftr_spec, Z.mod_pow2_bits_low by lia.
    destruct (Z.eq_dec r 0) as [-> | Hr0].
    - change ((32 - 0) mod 32) with 0. rewrite Z.shiftl_0_r, Z.add_0_r.
      rewrite Z.mod_small by lia. apply orb_diag.
    - rewrite (Z.mod_small (32 - r)) by lia.
      rewrite Z.shiftl_spec by lia.
      destruct (Z_lt_dec (i + r) 32) as [Hlt | Hge].
      + rewrite Z.mod_small by lia.
        rewrite (Z.testbit_neg_r x (i - (32 - r))) by lia.
        apply orb_false_r.
      + rewrite Hhigh by lia.
        replace ((i + r) mod 32) with (i - (32 - r)); [reflexivity |].
        symmetry. replace (i + r) with ((i - (32 - r)) + 1 * 32) by lia.
        rewrite Z.mod_add by lia. apply Z.mod_small. lia. }
  split; [| exact Hbits].
  set (y := Z.lor _ _) in *.
  assert (Hy0 : 0 <= y).
  { subst y. apply Z.lor_nonneg. split.
    - apply Z.shiftr_nonneg. unfold is_u32 in Hx. lia.
    - apply (u32_range _). }
  split; [exact Hy0 |].
  destruct (Z.eq_dec y 0) as [-> | Hy]; [lia |].
  apply Z.log2_lt_pow2; [lia |].
  destruct (Z_lt_dec (Z.log2 y) 32) as [? | Hge]; [assumption | exfalso].
  assert (Hb : Z.testbit y (Z.log2 y) = true) by (apply Z.bit_log2; lia).
  subst y. unfold shl32, u32 in *.
  rewrite Z.lor_spec, Z.shiftr_spec in Hb by (apply Z.log2_nonneg).
  rewrite Hhigh, Z.mod_pow2_bits_high in Hb by lia. discriminate.
Qed.

(** Equations between [uint64_t] expressions: reduce both sides modulo
    [2 ^ 64] and compare the polynomials. *)
#[local] Existing Instances eqm_setoid Zplus_eqm Zminus_eqm Zmult_eqm Zopp_eqm.

Ltac u64_ring :=
  unfold u64;
  match goal with |- ?a mod ?n = ?b mod ?n => change (eqm n a b) end;
  rewrite ?Zmod_eqm; unfold eqm; f_equal; ring.

(** ** Proofs: the linear congruential recurrence *)

Section LCG.

Lemma iter_twice {A : Type} (f : A -> A) (n : nat) (x : A) :
  Nat.iter (2 * n) f x = Nat.iter n (fun y => f (f y)) x.
Proof.
  induction n as [| n IH]; [reflexivity |].
  replace (2 * S n)%nat with (S (S (2 * n))) by lia.
  cbn [Nat.iter nat_rect]. unfold Nat.iter in IH. now rewrite IH.
Qed.

Lemma lcg_twice m p x :
  lcg m p (lcg m p x) = lcg (u64 (m * m)) (u64 ((m + 1) * p)) x.
Proof. unfold lcg. u64_ring. Qed.

Lemma lcg_range m p x : is_u64 (lcg m p x).
Proof. apply u64_range. Qed.

Lemma lcg_iter_range m p n x : is_u64 x -> is_u64 (Nat.iter n (lcg m p) x).
Proof. destruct n; [trivial | intros _; apply lcg_range]. Qed.

Lemma lcg_u64_arg m p x : lcg m p (u64 x) = lcg m p x.
Proof. unfold lcg. u64_ring. Qed.

Lemma u64_lcg m p x : u64 (lcg m p x) = lcg m p x.
Proof. apply u64_small, lcg_range. Qed.

Lemma lcg_iter_u64 m p n x :
  u64 (Nat.iter n (lcg m p) (u64 x)) = u64 (Nat.iter n (lcg m p) x).
Proof.
  destruct n as [| n].
  - cbn [Nat.iter nat_rect]. unfold u64. apply Z.mod_mod. lia.
  - now rewrite !Nat.iter_succ_r, lcg_u64_arg.
Qed.

(** The closed form of [n] transitions. *)
Lemma lcg_iter_closed a c n x :
  u64 (Nat.iter n (lcg a c) x) = u64 (x * a ^ Z.of_nat n + c * geo a n).
Proof.
  induction n as [| n IH].
  - cbn [Nat.iter nat_rect geo]. f_equal. change (Z.of_nat 0) with 0. ring.
  - rewrite Nat2Z.inj_succ, Z.pow_succ_r by lia.
    rewrite Nat.iter_succ, u64_lcg, <- lcg_u64_arg, IH, lcg_u64_arg.
    cbn [geo]. unfold lcg. f_equal. ring.
Qed.

Lemma geo_add a n m : geo a (n + m) = geo a n * a ^ Z.of_nat m + geo a m.
Proof.
  induction m as [| m IH].
  - rewrite Nat.add_0_r. cbn [geo]. change (Z.of_nat 0) with 0. ring.
  - rewrite Nat.add_succ_r, Nat2Z.inj_succ, Z.pow_succ_r by lia.
    cbn [geo]. rewrite IH. ring.
Qed.

(** Two-adic size of [a ^ (2 ^ k)] and of [geo a (2 ^ k)] for a
    multiplier that is [1] modulo [4]. *)
Lemma pow2_orbit a t (k : nat) : a = 1 + 4 * t ->
  exists u v, a ^ Z.of_nat (2 ^ k) = 1 + 2 ^ (Z.of_nat k + 2) * u
           /\ geo a (2 ^ k) = 2 ^ Z.of_nat k * (2 * v + 1).
Proof.
  intros Ha. induction k as [| k (u & v & Hu & Hv)].
  - exists t, 0. change (2 ^ 0)%nat with 1%nat. cbn [geo].
    change (Z.of_nat 1) with 1. change (Z.of_nat 0) with 0.
    rewrite Z.pow_1_r. change (2 ^ (0 + 2)) with 4. split; lia.
  - set (P := 2 ^ Z.of_nat k) in *.
    assert (HP : 2 ^ (Z.of_nat k + 2) = 4 * P).
    { subst P. rewrite Z.pow_add_r by lia. ring. }
    assert (HP' : 2 ^ (Z.of_nat (S k) + 2) = 8 * P).
    { subst P. rewrite Nat2Z.inj_succ.
      replace (Z.succ (Z.of_nat k) + 2) with (Z.of_nat k + 3) by lia.
      rewrite Z.pow_add_r by lia. ring. }
    assert (HP'' : 2 ^ Z.of_nat (S k) = 2 * P).
    { subst P. rewrite Nat2Z.inj_succ, Z.pow_succ_r by lia. ring. }
    rewrite HP in Hu. rewrite HP', HP''.
    replace (2 ^ S k)%nat with (2 ^ k + 2 ^ k)%nat by (cbn [Nat.pow]; lia).
    rewrite geo_add, Nat2Z.inj_add, Z.pow_add_r by lia.
    rewrite Hu, Hv.
    exists (u + 2 * P * u * u), (v + P * u * (2 * v + 1)).
    split; ring.
Qed.

End LCG.

(** ** Proofs: the jump function *)

Section Advance.

Lemma land_1_odd delta : negb (Z.land delta 1 =? 0) = Z.odd delta.
Proof.
  change 1 with (Z.ones 1) at 1. rewrite Z.land_ones by lia.
  change (2 ^ 1) with 2. rewrite Zmod_odd. now destruct (Z.odd delta).
Qed.

Lemma to_nat_half delta : 0 < delta ->
  Z.to_nat delta = (2 * Z.to_nat (delta / 2) + (if Z.odd delta then 1 else 0))%nat.
Proof.
  intros Hd. pose proof (Zmod_odd delta) as Ho.
  pose proof (Z.div_mod delta 2 ltac:(lia)) as Hdm.
  assert (0 <= delta / 2) by (apply Z.div_pos; lia).
  destruct (Z.odd delta); lia.
Qed.

(** Transitions respect congruence modulo [2 ^ 64]. *)
Lemma lcg_iter_congr m p n x y :
  u64 x = u64 y ->
  u64 (Nat.iter n (lcg m p) x) = u64 (Nat.iter n (lcg m p) y).
Proof.
  intros Hxy.
  rewrite <- (lcg_iter_u64 m p n x), <- (lcg_iter_u64 m p n y).
  now rewrite Hxy.
Qed.

Lemma lcg_iter_twice m p n x :
  Nat.iter (2 * n) (lcg m p) x
  = Nat.iter n (lcg (u64 (m * m)) (u64 ((m + 1) * p))) x.
Proof.
  rewrite iter_twice. induction n as [| n IH]; [reflexivity |].
  rewrite !Nat.iter_succ, IH. apply lcg_twice.
Qed.

(** The loop composes the affine map [x -> acc_mult * x + acc_plus]
    with [delta] transitions of the current map. *)
Lemma advance_loop_spec delta cur_mult cur_plus acc_mult acc_plus x :
  let (m, p) := advance_loop delta cur_mult cur_plus acc_mult acc_plus in
  u64 (m * x + p)
  = u64 (Nat.iter (Z.to_nat delta) (lcg cur_mult cur_plus) (acc_mult * x + acc_plus)).
Proof.
  funelim (advance_loop delta cur_mult cur_plus acc_mult acc_plus).
  - clear Heq Heqcall.
    rewrite land_1_odd, (to_nat_half delta) by assumption.
    destruct (Z.odd delta).
    + match goal with
      | IH : context [u64 (acc_mult * cur_mult)] |- _ => specialize (IH x)
      end.
      destruct (advance_loop _ _ _ (u64 (acc_mult * cur_mult)) _) as [m p].
      match goal with IH : u64 (m * x + p) = _ |- _ => rewrite IH end.
      rewrite Nat.add_1_r, Nat.iter_succ_r, lcg_iter_twice.
      apply lcg_iter_congr. unfold lcg. u64_ring.
    + match goal with
      | IH : context [advance_loop _ _ _ acc_mult acc_plus] |- _ => specialize (IH x)
      end.
      destruct (advance_loop _ _ _ acc_mult acc_plus) as [m p].
      match goal with IH : u64 (m * x + p) = _ |- _ => rewrite IH end.
      now rewrite Nat.add_0_r, lcg_iter_twice.
  - replace (Z.to_nat delta) with 0%nat by lia. reflexivity.
Qed.

Lemma pcg_advance_lcg_64_spec st delta cur_mult cur_plus :
  is_u64 st ->
  pcg_advance_lcg_64 st delta cur_mult cur_plus
  = Nat.iter (Z.to_nat delta) (lcg cur_mult cur_plus) st.
Proof.
  intros Hst. unfold pcg_advance_lcg_64.
  pose proof (advance_loop_spec delta cur_mult cur_plus 1 0 st) as H.
  destruct (advance_loop delta cur_mult cur_plus 1 0) as [m p].
  rewrite H. replace (1 * st + 0) with st by ring.
  apply u64_small, lcg_iter_range, Hst.
Qed.

Lemma step_iter n g :
  Nat.iter n step g
  = {| state := Nat.iter n (lcg PCG32_MULT (inc g)) (state g); inc := inc g |}.
Proof.
  induction n as [| n IH]; [now destruct g |].
  rewrite !Nat.iter_succ, IH. reflexivity.
Qed.

(** [advance] is [u64 delta] single transitions. *)
Lemma advance_iter delta g :
  is_u64 (state g) -> advance delta g = Nat.iter (Z.to_nat (u64 delta)) step g.
Proof.
  intros Hst. unfold advance.
  now rewrite pcg_advance_lcg_64_spec, step_iter.
Qed.

(** The multiplier is [1] modulo [4], so [2 ^ 64] transitions are the
    identity, whatever the increment. *)
Lemma lcg_period c x :
  is_u64 x -> Nat.iter (2 ^ 64) (lcg PCG32_MULT c) x = x.
Proof.
  intros Hx.
  destruct (pow2_orbit PCG32_MULT 1591034055961698251 64 eq_refl)
    as (u & v & Hu & Hv).
  rewrite <- (u64_small _ (lcg_iter_range PCG32_MULT c (2 ^ 64) x Hx)).
  rewrite lcg_iter_closed, Hu, Hv.
  rewrite <- (u64_small x Hx) at 2.
  change (Z.of_nat 64 + 2) with 66. change (Z.of_nat 64) with 64.
  change (2 ^ 66) with (2 ^ 64 * 4).
  unfold u64.
  replace (x * (1 + 2 ^ 64 * 4 * u) + c * (2 ^ 64 * (2 * v + 1)))
    with (x + (x * 4 * u + c * (2 * v + 1)) * 2 ^ 64) by ring.
  apply Z.mod_add. lia.
Qed.

Lemma step_period g : wf g -> Nat.iter (2 ^ 64) step g = g.
Proof.
  intros [Hst _]. rewrite step_iter, lcg_period by assumption. now destruct g.
Qed.

End Advance.

Ltac wf_tac := repeat split; vm_compute; first [reflexivity | discriminate].

Lemma to_nat_pow64 : Z.to_nat (2 ^ 64) = (2 ^ 64)%nat.
Proof.
  rewrite Znat.Z2Nat.inj_pow by lia.
  change (Z.to_nat 2) with 2%nat. change (Z.to_nat 64) with 64%nat. reflexivity.
Qed.

Lemma step_wf g : is_u64 (inc g) -> wf (step g).
Proof. intros Hi. split; [apply u64_range | exact Hi]. Qed.

Lemma step_iter_wf n g : wf g -> wf (Nat.iter n step g).
Proof.
  intros Hg. induction n as [| n IH]; [exact Hg |].
  rewrite Nat.iter_succ. apply step_wf, IH.
Qed.

(** ** The raw draw *)

Lemma nextUInt_eta g : nextUInt g = (output g, step g).
Proof. unfold output, step. now destruct (nextUInt g). Qed.

(** The value drawn rotates the xorshifted word by the top five bits
    of the state. *)
Lemma output_rotr g :
  is_u64 (state g) ->
  is_rotr32 (u32 (Z.shiftr (Z.lxor (Z.shiftr (state g) 18) (state g)) 27))
            (Z.shiftr (state g) 59) (output g).
Proof.
  intros Hst. pose proof (shiftr_59_range _ Hst) as Hrot.
  unfold output, nextUInt. cbn [fst].
  rewrite (u32_small (Z.shiftr (state g) 59)) by (unfold is_u32; lia).
  apply rotr32_formula; [apply u32_range | exact Hrot].
Qed.

Lemma output_range g : wf g -> is_u32 (output g).
Proof. intros [Hst _]. apply (output_rotr g Hst). Qed.

(** C1. [nextUInt] leaves the state [old * 6364136223846793005 + inc]
    modulo [2 ^ 64], where [old] is the state before the call, and
    returns [(xorshifted >> rot) | (xorshifted << ((-rot) & 31))] with
    [xorshifted = uint32 (((old >> 18) ^ old) >> 27)] and
    [rot = uint32 (old >> 59)]; that value is the rotation of
    [xorshifted] to the right by [rot] bits, and both results are
    functions of the state before the call. *)
Theorem nextUInt_spec (g : pcg32) :
  wf g ->
  let old := state g in
  let xorshifted := Z.shiftr (Z.lxor (Z.shiftr old 18) old) 27 mod 2 ^ 32 in
  let rot := Z.shiftr old 59 mod 2 ^ 32 in
  state (snd (nextUInt g)) = (old * 6364136223846793005 + inc g) mod 2 ^ 64
  /\ inc (snd (nextUInt g)) = inc g
  /\ fst (nextUInt g)
     = Z.lor (Z.shiftr xorshifted rot)
             (Z.shiftl xorshifted (Z.land (- rot) 31) mod 2 ^ 32)
  /\ 0 <= rot < 32
  /\ is_rotr32 xorshifted rot (fst (nextUInt g)).
Proof.
  intros [Hst _]. cbv zeta.
  pose proof (shiftr_59_range _ Hst) as Hrot.
  assert (Hr : Z.shiftr (state g) 59 mod 2 ^ 32 = Z.shiftr (state g) 59)
    by (apply Z.mod_small; lia).
  rewrite Hr.
  destruct (neg32_land_31 _ Hrot) as [Hn1 Hn2].
  refine (conj eq_refl (conj eq_refl (conj _ (conj Hrot (output_rotr g Hst))))).
  unfold nextUInt. cbn [fst]. fold (u32 (Z.shiftr (state g) 59)).
  rewrite (u32_small (Z.shiftr (state g) 59)) by (unfold is_u32; lia).
  unfold shl32, u32. now rewrite Hn1, Hn2.
Qed.

Lemma nextUInt_spec_witness :
  state (snd (nextUInt pcg32_default))
  = (state pcg32_default * 6364136223846793005 + inc pcg32_default) mod 2 ^ 64.
Proof.
  exact (proj1 (nextUInt_spec pcg32_default ltac:(wf_tac))).
Defined.

(** ** Jump-ahead and jump-back *)

(** C2. For a non-negative [n], [advance n] leaves the generator that
    [n] calls of [nextUInt] leave, so the draw after [advance n] is the
    value of call number [n + 1] from the original generator. *)
Theorem advance_forward (g : pcg32) (n : Z) :
  wf g -> 0 <= n < 2 ^ 63 ->
  advance n g = Nat.iter (Z.to_nat n) step g
  /\ state (advance n g)
     = Nat.iter (Z.to_nat n) (fun s => (s * 6364136223846793005 + inc g) mod 2 ^ 64)
         (state g)
  /\ fst (nextUInt (advance n g)) = output (Nat.iter (Z.to_nat n) step g).
Proof.
  intros [Hst Hi] Hn.
  assert (H : advance n g = Nat.iter (Z.to_nat n) step g).
  { rewrite advance_iter by assumption. rewrite u64_small; [reflexivity |].
    unfold is_u64. lia. }
  repeat split.
  - exact H.
  - rewrite H, step_iter. reflexivity.
  - now rewrite H.
Qed.

Lemma advance_forward_witness :
  fst (nextUInt (advance 1000 pcg32_default))
  = output (Nat.iter (Z.to_nat 1000) step pcg32_default).
Proof.
  exact (proj2 (proj2 (advance_forward pcg32_default 1000
                         ltac:(wf_tac) ltac:(lia)))).
Defined.

(** C6. [advance n] followed by [advance (- n)] gives back the
    generator; a backward jump by [n > 0] runs the loop on the unsigned
    value [2 ^ 64 - n], that is, it makes [2 ^ 64 - n] transitions. *)
Theorem advance_inverse (g : pcg32) (n : Z) :
  wf g -> - 2 ^ 63 <= n < 2 ^ 63 ->
  advance (- n) (advance n g) = g
  /\ (0 < n ->
      state (advance (- n) g)
      = pcg_advance_lcg_64 (state g) (2 ^ 64 - n) PCG32_MULT (inc g)
      /\ advance (- n) g = Nat.iter (Z.to_nat (2 ^ 64 - n)) step g).
Proof.
  intros Hg Hn. pose proof Hg as [Hst Hi]. split.
  - rewrite (advance_iter n g Hst).
    rewrite advance_iter by (apply step_iter_wf, Hg).
    rewrite <- Nat.iter_add.
    assert (Hr : is_u64 (u64 n)) by apply u64_range.
    assert (Hr' : is_u64 (u64 (- n))) by apply u64_range.
    unfold is_u64 in Hr, Hr'.
    assert (Hsum : u64 (- n) + u64 n = 0 \/ u64 (- n) + u64 n = 2 ^ 64).
    { unfold u64 in *.
      pose proof (Z.div_mod n (2 ^ 64) ltac:(lia)).
      pose proof (Z.div_mod (- n) (2 ^ 64) ltac:(lia)). lia. }
    rewrite <- Z2Nat.inj_add by lia.
    destruct Hsum as [-> | ->].
    + reflexivity.
    + rewrite to_nat_pow64. apply step_period, Hg.
  - intros Hpos.
    assert (Hu : u64 (- n) = 2 ^ 64 - n).
    { unfold u64. replace (- n) with (2 ^ 64 - n + (-1) * 2 ^ 64) by ring.
      rewrite Z.mod_add by lia. apply Z.mod_small. lia. }
    split.
    + unfold advance. cbn [state]. now rewrite Hu.
    + now rewrite advance_iter, Hu.
Qed.

Lemma advance_inverse_witness :
  advance (- 5) (advance 5 pcg32_default) = pcg32_default.
Proof.
  exact (proj1 (advance_inverse pcg32_default 5 ltac:(wf_tac) ltac:(lia))).
Defined.

(** ** The bounded draw *)

Lemma draw_step k g : draw k (step g) = draw (S k) g.
Proof. unfold draw. now rewrite Nat.iter_succ_r. Qed.


Lemma umod_Ok a b : b <> 0 -> umod a b = Ok (a mod b).
Proof. intros Hb. unfold umod. now destruct (Z.eqb_spec b 0). Qed.

Lemma umod_zero a : umod a 0 = Fault DivisionByZero.
Proof. reflexivity. Qed.

(** A returning loop stopped at the first raw draw that reaches the
    threshold. *)
Lemma nextUInt_loop_Ok fuel thr bound g r g' :
  nextUInt_loop fuel thr bound g = Ok (r, g') ->
  exists k : nat,
    (k < fuel)%nat
    /\ (forall j : nat, (j < k)%nat -> draw j g < thr)
    /\ thr <= draw k g
    /\ bound <> 0
    /\ r = draw k g mod bound
    /\ g' = Nat.iter (S k) step g.
Proof.
  revert g. induction fuel as [| fuel IH]; intros g H; [discriminate |].
  cbn [nextUInt_loop] in H. rewrite nextUInt_eta in H.
  destruct (Z.leb_spec thr (output g)) as [Hle | Hlt].
  - exists 0%nat. unfold umod in H.
    destruct (Z.eqb_spec bound 0) as [| Hb]; [discriminate |].
    cbn in H. injection H as <- <-.
    repeat split; try assumption; try reflexivity; try lia.
  - destruct (IH _ H) as (k & Hk & Hbelow & Hreach & Hb & Hr & Hg').
    exists (S k). rewrite <- !draw_step.
    repeat split; try assumption; try lia.
    + intros [| j] Hj; [exact Hlt | rewrite <- draw_step; apply Hbelow; lia].
    + now rewrite Nat.iter_succ_r.
Qed.

(** Conversely the loop returns as soon as a raw draw reaches the
    threshold, if it has the rounds to get there. *)
Lemma nextUInt_loop_first fuel thr bound g k :
  (k < fuel)%nat ->
  (forall j : nat, (j < k)%nat -> draw j g < thr) ->
  thr <= draw k g ->
  bound <> 0 ->
  nextUInt_loop fuel thr bound g = Ok (draw k g mod bound, Nat.iter (S k) step g).
Proof.
  revert g k. induction fuel as [| fuel IH]; intros g k Hk Hbelow Hreach Hb; [lia |].
  cbn [nextUInt_loop]. rewrite nextUInt_eta.
  destruct k as [| k].
  - change (draw 0 g) with (output g) in *.
    destruct (Z.leb_spec thr (output g)); [| lia].
    now rewrite umod_Ok.
  - pose proof (Hbelow 0%nat ltac:(lia)) as H0. change (draw 0 g) with (output g) in H0.
    destruct (Z.leb_spec thr (output g)); [lia |].
    rewrite <- draw_step, Nat.iter_succ_r. apply IH; try assumption; try lia.
    + intros j Hj. rewrite draw_step. apply Hbelow. lia.
    + now rewrite draw_step.
Qed.

(** Some raw draw reaching the threshold is enough: there is a first
    one, and the loop stops there. *)
Lemma first_reach thr g k :
  thr <= draw k g ->
  exists j : nat,
    (j <= k)%nat /\ thr <= draw j g /\ forall i : nat, (i < j)%nat -> draw i g < thr.
Proof.
  revert g. induction k as [| k IH]; intros g Hreach.
  - exists 0%nat. repeat split; [lia | assumption | lia].
  - destruct (Z_le_gt_dec thr (draw 0 g)) as [H0 | H0].
    + exists 0%nat. repeat split; [lia | assumption | lia].
    + rewrite <- draw_step in Hreach.
      destruct (IH _ Hreach) as (j & Hj & Hjr & Hjb).
      exists (S j). rewrite <- draw_step. repeat split; [lia | assumption |].
      intros [| i] Hi; [lia | rewrite <- draw_step; apply Hjb; lia].
Qed.

Lemma nextUInt_loop_reach thr bound g k :
  thr <= draw k g -> bound <> 0 ->
  exists r g', forall fuel, (k < fuel)%nat ->
    nextUInt_loop fuel thr bound g = Ok (r, g').
Proof.
  intros Hreach Hb.
  destruct (first_reach thr g k Hreach) as (j & Hj & Hjr & Hjb).
  exists (draw j g mod bound), (Nat.iter (S j) step g).
  intros fuel Hfuel. apply nextUInt_loop_first; try assumption. lia.
Qed.

(** ** Proofs: the orbit of an odd increment *)

Section Orbit.

Variables (a t c : Z).
Hypothesis a_1_mod_4 : a = 1 + 4 * t.
Hypothesis c_odd : Z.odd c = true.

Lemma affine_add n m x : affine a c (n + m) x = affine a c m (affine a c n x).
Proof.
  unfold affine. rewrite geo_add, Nat2Z.inj_add, Z.pow_add_r by lia. ring.
Qed.

(** [2 ^ k] transitions move every state by an odd multiple of [2 ^ k]. *)
Lemma affine_pow2 (k : nat) z :
  exists w, affine a c (2 ^ k) z = z + 2 ^ Z.of_nat k * (2 * w + 1).
Proof.
  destruct (pow2_orbit a t k a_1_mod_4) as (u & v & Hu & Hv).
  apply Z.odd_spec in c_odd as [c' Hc].
  unfold affine. rewrite Hu, Hv, Z.pow_add_r by lia.
  exists (2 * z * u + 2 * c' * v + c' + v). rewrite Hc. ring.
Qed.

(** Every residue modulo [2 ^ k] is reached. *)
Lemma orbit_mod (k : nat) x y :
  exists (n : nat) q, affine a c n x - y = 2 ^ Z.of_nat k * q.
Proof.
  induction k as [| k (n & q & Hn)].
  - exists 0%nat, (x - y). unfold affine. cbn [geo].
    change (Z.of_nat 0) with 0. ring.
  - rewrite Nat2Z.inj_succ, Z.pow_succ_r by lia.
    destruct (Z.Even_or_Odd q) as [[q' Hq] | [q' Hq]].
    + exists n, q'. rewrite Hn, Hq. ring.
    + destruct (affine_pow2 k (affine a c n x)) as [w Hw].
      exists (n + 2 ^ k)%nat, (q' + w + 1).
      rewrite affine_add, Hw.
      replace (affine a c n x) with (y + 2 ^ Z.of_nat k * q) by lia.
      rewrite Hq. ring.
Qed.

Lemma lcg_affine n x : u64 (Nat.iter n (lcg a c) x) = u64 (affine a c n x).
Proof. apply lcg_iter_closed. Qed.

(** Full period: every state is reached from every state. *)
Lemma lcg_reach x y :
  is_u64 x -> is_u64 y -> exists n : nat, Nat.iter n (lcg a c) x = y.
Proof.
  intros Hx Hy. destruct (orbit_mod 64 x y) as (n & q & Hn).
  exists n.
  rewrite <- (u64_small _ (lcg_iter_range a c n x Hx)), <- (u64_small y Hy).
  rewrite lcg_affine. unfold u64.
  replace (affine a c n x) with (y + q * 2 ^ 64).
  - apply Z.mod_add. lia.
  - change (Z.of_nat 64) with 64 in Hn. lia.
Qed.

End Orbit.

Lemma PCG32_MULT_1_mod_4 : PCG32_MULT = 1 + 4 * 1591034055961698251.
Proof. reflexivity. Qed.

(** From a generator with an odd increment every state comes up. *)
Lemma step_reach g s :
  wf g -> Z.odd (inc g) = true -> is_u64 s ->
  exists n : nat, Nat.iter n step g = {| state := s; inc := inc g |}.
Proof.
  intros [Hst Hi] Hodd Hs.
  destruct (lcg_reach _ _ _ PCG32_MULT_1_mod_4 Hodd (state g) s Hst Hs) as [n Hn].
  exists n. now rewrite step_iter, Hn.
Qed.



Lemma neg32_pos bound : 0 < bound < 2 ^ 32 -> neg32 bound = 2 ^ 32 - bound.
Proof.
  intros Hb. unfold neg32, u32.
  replace (- bound) with (2 ^ 32 - bound + (-1) * 2 ^ 32) by ring.
  rewrite Z.mod_add by lia. apply Z.mod_small. lia.
Qed.

(** C5. For [1 <= bound <= 2 ^ 32 - 1] the threshold [-bound % bound],
    computed on 32 bits as [((2 ^ 32 - bound) mod 2 ^ 32) mod bound], is
    [2 ^ 32 mod bound]. *)
Theorem threshold_spec (bound : Z) :
  1 <= bound <= 2 ^ 32 - 1 ->
  threshold bound = Ok (2 ^ 32 mod bound)
  /\ threshold bound = Ok (((2 ^ 32 - bound) mod 2 ^ 32) mod bound)
  /\ neg32 bound = 2 ^ 32 - bound.
Proof.
  intros Hb. unfold threshold.
  rewrite umod_Ok, neg32_pos by lia.
  rewrite (Z.mod_small (2 ^ 32 - bound) (2 ^ 32)) by lia.
  replace (2 ^ 32 - bound) with (2 ^ 32 + (-1) * bound) by ring.
  rewrite Z.mod_add by lia. repeat split.
Qed.

Lemma threshold_spec_witness : threshold 100 = Ok (2 ^ 32 mod 100).
Proof. exact (proj1 (threshold_spec 100 ltac:(lia))). Defined.


(** What a returning bounded draw returns. *)
Lemma nextUInt_bounded_Ok fuel bound g r g' :
  0 < bound ->
  nextUInt_bounded fuel bound g = Ok (r, g') ->
  0 <= r < bound
  /\ exists (thr : Z) (k : nat),
       threshold bound = Ok thr
       /\ (forall j : nat, (j < k)%nat -> draw j g < thr)
       /\ thr <= draw k g
       /\ r = draw k g mod bound
       /\ g' = Nat.iter (S k) step g.
Proof.
  intros Hb H. unfold nextUInt_bounded in H.
  destruct (threshold bound) as [thr | |] eqn:Hthr; try discriminate.
  cbn in H. apply nextUInt_loop_Ok in H as (k & _ & Hbelow & Hreach & _ & -> & ->).
  split; [apply Z.mod_pos_bound; lia |].
  exists thr, k. repeat split; assumption.
Qed.

(** A positive bound divides safely, in the threshold and in the loop. *)
Lemma nextUInt_bounded_no_fault fuel bound g f :
  0 < bound -> nextUInt_bounded fuel bound g <> Fault f.
Proof.
  intros Hb. unfold nextUInt_bounded, threshold. rewrite umod_Ok by lia.
  cbn. generalize (neg32 bound mod bound). intros thr.
  revert g. induction fuel as [| fuel IH]; intros g; [discriminate |].
  cbn [nextUInt_loop]. rewrite nextUInt_eta.
  destruct (thr <=? output g); [| apply IH].
  rewrite umod_Ok by lia. discriminate.
Qed.

(** C3. When the bounded draw returns [r] for a [bound > 0], then
    [0 <= r < bound], and [r] comes from rejection sampling: the raw
    draws below the threshold were dropped and the first raw draw [r0]
    that reaches it gives [r = r0 mod bound]. *)
Theorem nextUInt_bounded_spec (fuel : nat) (bound : Z) (g : pcg32) (r : Z) (g' : pcg32) :
  0 < bound ->
  nextUInt_bounded fuel bound g = Ok (r, g') ->
  0 <= r < bound
  /\ exists (thr : Z) (k : nat),
       threshold bound = Ok thr
       /\ (forall j : nat, (j < k)%nat -> draw j g < thr)
       /\ thr <= draw k g
       /\ r = draw k g mod bound
       /\ g' = Nat.iter (S k) step g.
Proof. apply nextUInt_bounded_Ok. Qed.

Lemma nextUInt_bounded_spec_witness :
  0 <= 13 < 100
  /\ exists (thr : Z) (k : nat),
       threshold 100 = Ok thr
       /\ (forall j : nat, (j < k)%nat -> draw j pcg32_default < thr)
       /\ thr <= draw k pcg32_default
       /\ 13 = draw k pcg32_default mod 100
       /\ step pcg32_default = Nat.iter (S k) step pcg32_default.
Proof.
  exact (nextUInt_bounded_spec 8 100 pcg32_default 13 (step pcg32_default)
           ltac:(lia) eq_refl).
Defined.


(** C9. [nextUInt(0)] divides by zero: it faults and returns nothing;
    with [bound > 0] no division by zero is reached. *)
Theorem nextUInt_bounded_zero (fuel : nat) (bound : Z) (g : pcg32) :
  (bound = 0 ->
     threshold bound = Fault DivisionByZero
     /\ nextUInt_bounded fuel bound g = Fault DivisionByZero
     /\ forall v, nextUInt_bounded fuel bound g <> Ok v)
  /\ (0 < bound ->
        (exists thr, threshold bound = Ok thr)
        /\ forall f, nextUInt_bounded fuel bound g <> Fault f).
Proof.
  split.
  - intros ->. repeat split. intros v H. discriminate.
  - intros Hb. split.
    + unfold threshold. rewrite umod_Ok by lia. eauto.
    + intros f. now apply nextUInt_bounded_no_fault.
Qed.

Lemma nextUInt_bounded_zero_witness :
  nextUInt_bounded 3 0 pcg32_default = Fault DivisionByZero
  /\ forall f, nextUInt_bounded 3 7 pcg32_default <> Fault f.
Proof.
  split.
  - exact (proj1 (proj2 (proj1 (nextUInt_bounded_zero 3 0 pcg32_default) eq_refl))).
  - exact (proj2 (proj2 (nextUInt_bounded_zero 3 7 pcg32_default) ltac:(lia))).
Defined.

(** ** Seeding *)

Lemma lor_1_odd x : Z.odd (Z.lor x 1) = true.
Proof. rewrite <- Z.bit0_odd, Z.lor_spec. apply orb_true_r. Qed.

(** C4. [seed] leaves the generator of the five steps: state [0],
    increment [(init_sequence << 1) | 1], one transition, [init_state]
    added to the state, one more transition.  The increment it leaves is
    [(init_sequence << 1) | 1], which is odd. *)
Theorem seed_spec (initstate initseq : Z) (g : pcg32) :
  seed initstate initseq g = seed_steps initstate initseq
  /\ seed initstate initseq g
     = step (let g1 := step {| state := 0; inc := Z.lor (shl64 initseq 1) 1 |} in
             {| state := u64 (state g1 + initstate); inc := inc g1 |})
  /\ inc (seed initstate initseq g) = Z.lor (Z.shiftl initseq 1 mod 2 ^ 64) 1
  /\ Z.odd (inc (seed initstate initseq g)) = true
  /\ Z.lor (inc (seed initstate initseq g)) 1 = inc (seed initstate initseq g).
Proof.
  assert (Hinc : inc (seed initstate initseq g) = Z.lor (Z.shiftl initseq 1 mod 2 ^ 64) 1)
    by reflexivity.
  refine (conj eq_refl (conj eq_refl (conj Hinc (conj _ _)))).
  - rewrite Hinc. apply lor_1_odd.
  - rewrite Hinc, <- Z.lor_assoc. reflexivity.
Qed.

(** ** The increment is a frame *)

Lemma nextUInt_bounded_inc fuel bound g r g' :
  nextUInt_bounded fuel bound g = Ok (r, g') -> inc g' = inc g.
Proof.
  unfold nextUInt_bounded. destruct (threshold bound) as [thr | |]; try discriminate.
  cbn. intros H. apply nextUInt_loop_Ok in H as (k & _ & _ & _ & _ & _ & ->).
  now rewrite step_iter.
Qed.

(** On the empty sequence [shuffle] returns nothing: the bound of its
    round is [0].  On any other it is the loop from [length - 1]. *)
Lemma shuffle_nil {A : Type} fuel g :
  shuffle fuel g ([] : list A) = Fault DivisionByZero.
Proof. reflexivity. Qed.

Lemma shuffle_nonempty {A : Type} fuel g (l : list A) :
  l <> [] -> shuffle fuel g l = shuffle_loop fuel (length l - 1) g l.
Proof. now destruct l. Qed.

Lemma shuffle_loop_inc {A : Type} fuel i g (l : list A) g' l' :
  shuffle_loop fuel i g l = Ok (g', l') -> inc g' = inc g.
Proof.
  revert g l. induction i as [| i IH]; intros g l H.
  - now injection H as <- _.
  - cbn [shuffle_loop] in H.
    destruct (nextUInt_bounded fuel _ g) as [[r g1] | |] eqn:Hd; try discriminate.
    cbn in H. destruct (iter_swap l (S i) (Z.to_nat r)) as [l1 | |]; try discriminate.
    cbn in H. rewrite (IH _ _ H). eapply nextUInt_bounded_inc, Hd.
Qed.

Lemma run_op_inc {A : Type} fuel (o : operation A) g g' :
  run_op fuel o g = Ok g' -> inc g' = inc g.
Proof.
  destruct o as [| bound | | | delta | l]; cbn [run_op].
  - now intros [= <-].
  - destruct (nextUInt_bounded fuel bound g) as [[r g1] | |] eqn:Hd; try discriminate.
    cbn. intros [= <-]. eapply nextUInt_bounded_inc, Hd.
  - now intros [= <-].
  - now intros [= <-].
  - now intros [= <-].
  - destruct (shuffle fuel g l) as [[g1 l1] | |] eqn:Hs; try discriminate.
    cbn. intros [= <-].
    destruct l as [| x l]; [rewrite shuffle_nil in Hs; discriminate |].
    rewrite shuffle_nonempty in Hs by discriminate.
    eapply shuffle_loop_inc, Hs.
Qed.

(** C10. [nextUInt], the bounded [nextUInt], [nextFloat], [nextDouble],
    [advance] and [shuffle] leave the increment as it was, and so does
    every sequence of them: an odd increment stays odd. *)
Theorem inc_unchanged {A : Type} (fuel : nat) (os : list (operation A)) (g g' : pcg32) :
  run_ops fuel os g = Ok g' ->
  inc g' = inc g /\ (Z.odd (inc g) = true -> Z.odd (inc g') = true).
Proof.
  intros H. assert (Hinc : inc g' = inc g).
  { revert g H. induction os as [| o os IH]; intros g H.
    - now injection H as <-.
    - cbn [run_ops] in H.
      destruct (run_op fuel o g) as [g1 | |] eqn:Ho; try discriminate.
      cbn in H. rewrite (IH _ H). eapply run_op_inc, Ho. }
  split; [exact Hinc | now rewrite Hinc].
Qed.

Lemma inc_unchanged_witness :
  inc {| state := 10339721667161194127; inc := 15726070495360670683 |}
  = inc pcg32_default.
Proof.
  refine (proj1 (inc_unchanged 8
    [OpNextUInt; OpNextUIntBounded 6; OpNextFloat; OpNextDouble;
     OpAdvance (-3); OpShuffle [1; 2; 3; 4]]
    pcg32_default {| state := 10339721667161194127; inc := 15726070495360670683 |} _)).
  vm_compute. reflexivity.
Defined.

(** ** Floating-point draws *)

(** C7, at a generator where it fails.  The state [2 ^ 59 - 2 ^ 41]
    (reached by [seed 12242727081253111310 1]) makes [nextUInt] return
    [2 ^ 32 - 1]; the conversion to [float] rounds it to [2 ^ 32], and
    [nextFloat] returns exactly [1.0].  [nextDouble] returns
    [(2 ^ 32 - 1) / 2 ^ 32] there. *)
Theorem nextFloat_returns_one :
  let g := seed 12242727081253111310 1 pcg32_default in
  g = {| state := 2 ^ 59 - 2 ^ 41; inc := 3 |}
  /\ fst (nextUInt g) = 2 ^ 32 - 1
  /\ Float.float_of_uint (2 ^ 32 - 1) = S754_finite false (2 ^ 23) 9
  /\ fst (nextFloat g) = Float.onef
  /\ Float.in_unit_f (fst (nextFloat g)) = false
  /\ Float.in_unit (fst (nextDouble g)) = true.
Proof. cbv zeta. repeat split. Qed.

(** ** Shuffle *)

Section Shuffle.

Context {A : Type}.
Implicit Types l : list A.










(** A sequence of [2 ^ 32] elements or more is never shuffled: the
    cast of [it - begin + 1] gives the bound [0] when [it - begin] gets
    to [2 ^ 32 - 1]. *)
Lemma shuffle_loop_large fuel i g l v :
  2 ^ 32 - 1 <= Z.of_nat i -> shuffle_loop fuel i g l <> Ok v.
Proof.
  revert g l. induction i as [| i IH]; intros g l Hi; [lia |].
  cbn [shuffle_loop].
  destruct (Z.eq_dec (Z.of_nat (S i)) (2 ^ 32 - 1)) as [He | Hne].
  - replace (u32 (Z.of_nat (S i) + 1)) with 0 by (now rewrite He).
    discriminate.
  - destruct (nextUInt_bounded fuel _ g) as [[r g1] | |]; try discriminate.
    cbn. destruct (iter_swap l (S i) (Z.to_nat r)) as [l1 | |]; try discriminate.
    cbn. apply IH. lia.
Qed.

End Shuffle.




(** ** Proofs: conversions that are exact in binary64 *)

Section Binary64.

Lemma digits2_size p : digits2_pos p = Pos.size p.
Proof. induction p; cbn; congruence. Qed.

Lemma digits2_shift p k : digits2_pos (Pos.iter xO p k) = (digits2_pos p + k)%positive.
Proof.
  induction k using Pos.peano_ind.
  - cbn. lia.
  - rewrite Pos.iter_succ. cbn [digits2_pos]. rewrite IHk. lia.
Qed.

Lemma digits2_bound p n : 0 <= n -> Zpos p < 2 ^ n -> Zpos (digits2_pos p) <= n.
Proof.
  intros Hn Hp. rewrite digits2_size.
  pose proof (Pos.size_le p) as Hle.
  destruct (Z_le_gt_dec (Zpos (Pos.size p)) n) as [? | Hgt]; [assumption | exfalso].
  assert (2 ^ (n + 1) <= 2 ^ Zpos (Pos.size p)) by (apply Z.pow_le_mono_r; lia).
  rewrite Z.pow_add_r in H by lia.
  assert (Zpos (2 ^ Pos.size p) <= Zpos p~0) by (apply Pos2Z.pos_le_pos; exact Hle).
  rewrite Pos2Z.inj_pow in H0. lia.
Qed.

Lemma binary_round_aux_exact m e :
  Zpos (digits2_pos m) = 53 -> -1074 <= e <= 971 ->
  binary_round_aux 53 1024 false (Zpos m) e loc_Exact = S754_finite false m e.
Proof.
  intros Hd He. unfold binary_round_aux, shr_fexp, fexp, emin. cbn [Zdigits2 shr_record_of_loc].
  rewrite Hd.
  replace (Z.max (53 + e - 53) (3 - 1024 - 53) - e) with 0 by lia.
  cbn [shr shr_m loc_of_shr_record round_nearest_even Zdigits2]. rewrite Hd.
  replace (Z.max (53 + e - 53) (3 - 1024 - 53) - e) with 0 by lia.
  cbn [shr shr_m].
  destruct (Z.leb_spec e (1024 - 53)); [reflexivity | lia].
Qed.

Lemma binary_round_normal m e :
  Zpos (digits2_pos m) = 53 -> -1074 <= e <= 971 ->
  binary_round 53 1024 false m e = S754_finite false m e.
Proof.
  intros Hd He. unfold binary_round, shl_align, fexp, emin. rewrite Hd.
  replace (Z.max (53 + e - 53) (3 - 1024 - 53) - e) with 0 by lia.
  now apply binary_round_aux_exact.
Qed.

Lemma binary_round_small p :
  Zpos p < 2 ^ 32 ->
  exists m, binary_round 53 1024 false p 0 = S754_finite false m (Zpos (digits2_pos p) - 53)
            /\ Zpos (digits2_pos m) = 53.
Proof.
  intros Hp. pose proof (digits2_bound p 32 ltac:(lia) Hp) as Hd.
  unfold binary_round, shl_align, fexp, emin.
  replace (Z.max (Z.pos (digits2_pos p) + 0 - 53) (3 - 1024 - 53) - 0)
    with (Zneg (53 - digits2_pos p)) by lia.
  exists (Pos.iter xO p (53 - digits2_pos p)).
  assert (Hm : Zpos (digits2_pos (Pos.iter xO p (53 - digits2_pos p))) = 53)
    by (rewrite digits2_shift; lia).
  split; [| exact Hm].
  replace (Z.max (Z.pos (digits2_pos p) + 0 - 53) (3 - 1024 - 53))
    with (Zpos (digits2_pos p) - 53) by lia.
  apply binary_round_aux_exact; [exact Hm | lia].
Qed.

(** [(double) r] for a 32-bit [r], scaled by [2 ^ -32], is in [[0, 1)]. *)
Lemma double_scaled_in_unit r :
  is_u32 r -> Float.in_unit (Float.ldexp (Float.double_of_uint r) (-32)) = true.
Proof.
  unfold is_u32. intros Hr. destruct r as [| p | p]; [reflexivity | | lia].
  unfold Float.double_of_uint, Float.ldexp, Float.prec64, Float.emax64.
  cbn [binary_normalize].
  destruct (binary_round_small p ltac:(lia)) as (m & -> & Hm).
  pose proof (digits2_bound p 32 ltac:(lia) ltac:(lia)) as Hd.
  cbn [SFldexp]. rewrite binary_round_normal by (trivial; lia).
  unfold Float.in_unit, SFleb, SFltb. cbn [SFcompare Float.zero andb].
  change Float.one with (S754_finite false 4503599627370496 (-52)).
  cbn [SFcompare].
  destruct (Z.compare_spec (Z.pos (digits2_pos p) - 53 + -32) (-52)); [lia | reflexivity | lia].
Qed.

End Binary64.

(** [nextDouble] stays in [[0, 1)] at every state. *)
Lemma nextDouble_in_unit g : wf g -> Float.in_unit (fst (nextDouble g)) = true.
Proof.
  intros Hg. unfold nextDouble. rewrite nextUInt_eta. cbn [fst].
  apply double_scaled_in_unit, output_range, Hg.
Qed.

Lemma float_scaled_one r :
  2 ^ 32 - 128 <= r < 2 ^ 32 ->
  Float.ldexpf (Float.float_of_uint r) (-32) = Float.onef.
Proof.
  intros Hr.
  assert (Hall : forallb
            (fun k => is_onef (Float.ldexpf (Float.float_of_uint (2 ^ 32 - 128 + Z.of_nat k)) (-32)))
            (seq 0 128) = true) by (vm_compute; reflexivity).
  rewrite forallb_forall in Hall.
  specialize (Hall (Z.to_nat (r - (2 ^ 32 - 128)))).
  replace (2 ^ 32 - 128 + Z.of_nat (Z.to_nat (r - (2 ^ 32 - 128)))) with r in Hall by lia.
  assert (Hin : In (Z.to_nat (r - (2 ^ 32 - 128))) (seq 0 128)) by (apply in_seq; lia).
  specialize (Hall Hin).
  destruct (Float.ldexpf (Float.float_of_uint r) (-32)) as [| | | [] m e]; try discriminate.
  apply andb_true_iff in Hall as [Hm He].
  apply Pos.eqb_eq in Hm. apply Z.eqb_eq in He. now subst.
Qed.

Lemma float_scaled_below_one :
  Float.in_unit_f (Float.ldexpf (Float.float_of_uint (2 ^ 32 - 129)) (-32)) = true.
Proof. reflexivity. Qed.

(** A generator that the bounded draw never leaves: state [0] with the
    even increment [0] draws [0] for ever, below the threshold of [3]. *)
Lemma nextUInt_bounded_stuck fuel :
  nextUInt_bounded fuel 3 (pcg32_new 0 0) = OutOfFuel.
Proof.
  unfold nextUInt_bounded. change (threshold 3) with (Ok (A := Z) 1). cbn.
  induction fuel as [| fuel IH]; [reflexivity | exact IH].
Qed.

(** ** The period of the generator *)

Lemma geo_closed a n : (a - 1) * geo a n = a ^ Z.of_nat n - 1.
Proof.
  induction n as [| n IH].
  - cbn [geo]. change (Z.of_nat 0) with 0. ring.
  - rewrite Nat2Z.inj_succ, Z.pow_succ_r by lia. cbn [geo].
    replace (a ^ Z.of_nat n) with ((a - 1) * geo a n + 1) by lia. ring.
Qed.

Lemma geo_mul a n m : geo a (n * m) = geo a n * geo (a ^ Z.of_nat n) m.
Proof.
  induction m as [| m IH].
  - rewrite Nat.mul_0_r. cbn [geo]. ring.
  - rewrite Nat.mul_succ_r, geo_add, IH. cbn [geo]. ring.
Qed.

Lemma geo_odd b m : Z.odd b = true -> Z.odd (geo b m) = Nat.odd m.
Proof.
  intros Hb. induction m as [| m IH]; [reflexivity |].
  cbn [geo]. rewrite Nat.odd_succ, <- Nat.negb_odd, <- IH.
  rewrite Z.odd_add, Z.odd_mul, Hb. cbn. now destruct (Z.odd (geo b m)).
Qed.

(** Every positive number is a power of two times an odd number. *)
Lemma pow2_odd_split (n : nat) :
  (0 < n)%nat -> exists k m : nat, n = (2 ^ k * m)%nat /\ Nat.odd m = true.
Proof.
  induction n as [n IH] using lt_wf_ind. intros Hn.
  destruct (Nat.odd n) eqn:Ho.
  - exists 0%nat, n. split; [cbn; lia | exact Ho].
  - assert (He : Nat.even n = true) by (rewrite <- Nat.negb_odd, Ho; reflexivity).
    apply Nat.even_spec in He as [h Hh].
    destruct (IH h ltac:(lia) ltac:(lia)) as (k & m & Hk & Hm).
    exists (S k), m. split; [| exact Hm].
    rewrite Hh, Hk. cbn [Nat.pow]. lia.
Qed.

(** [n] transitions move a state by [geo a n] times an odd number. *)
Lemma lcg_iter_shift a t c c' n x :
  a = 1 + 4 * t -> c = 2 * c' + 1 ->
  u64 (Nat.iter n (lcg a c) x)
  = u64 (x + geo a n * (2 * (2 * t * x + c') + 1)).
Proof.
  intros Ha Hc. rewrite lcg_iter_closed. f_equal.
  pose proof (geo_closed a n) as Hg.
  replace (a ^ Z.of_nat n) with ((a - 1) * geo a n + 1) by lia.
  rewrite Ha, Hc. ring.
Qed.

(** The two-adic size of [geo a n] is that of [n]. *)
Lemma geo_valuation a t k m :
  a = 1 + 4 * t -> Nat.odd m = true ->
  exists q, geo a (2 ^ k * m) = 2 ^ Z.of_nat k * (2 * q + 1).
Proof.
  intros Ha Hm.
  destruct (pow2_orbit a t k Ha) as (u & v & Hu & Hv).
  assert (Hodd : Z.odd (geo (a ^ Z.of_nat (2 ^ k)) m) = true).
  { rewrite geo_odd; [exact Hm |].
    rewrite Hu, Z.odd_add, Z.odd_mul, Z.odd_pow by lia. reflexivity. }
  apply Z.odd_spec in Hodd as [w Hw].
  exists (2 * v * w + v + w). rewrite geo_mul, Hv, Hw. ring.
Qed.

Lemma pow2_divide_odd k q :
  0 <= k -> (2 ^ 64 | 2 ^ k * (2 * q + 1)) -> 64 <= k.
Proof.
  intros Hk [z Hz].
  destruct (Z_le_gt_dec 64 k) as [| Hlt]; [assumption | exfalso].
  replace (2 ^ 64) with (2 ^ k * 2 ^ (64 - k)) in Hz
    by (rewrite <- Z.pow_add_r by lia; f_equal; lia).
  assert (Hpos : 0 < 2 ^ k) by (apply Z.pow_pos_nonneg; lia).
  assert (Hq : 2 * q + 1 = z * 2 ^ (64 - k)) by nia.
  replace (64 - k) with (Z.succ (64 - k - 1)) in Hq by lia.
  rewrite Z.pow_succ_r in Hq by lia. lia.
Qed.

Lemma u64_eq_divide x y : u64 x = u64 y <-> (2 ^ 64 | y - x).
Proof.
  unfold u64. split.
  - intros H. exists (y / 2 ^ 64 - x / 2 ^ 64).
    pose proof (Z.div_mod x (2 ^ 64) ltac:(lia)).
    pose proof (Z.div_mod y (2 ^ 64) ltac:(lia)). lia.
  - intros [z Hz]. replace y with (x + z * 2 ^ 64) by lia.
    now rewrite Z.mod_add by lia.
Qed.

(** With an odd increment [n] transitions fix a state exactly when
    [2 ^ 64] divides [n]. *)
Lemma lcg_fixes a t c n x :
  a = 1 + 4 * t -> Z.odd c = true -> is_u64 x ->
  Nat.iter n (lcg a c) x = x <-> (2 ^ 64 | Z.of_nat n).
Proof.
  intros Ha Hc Hx. apply Z.odd_spec in Hc as [c' Hc].
  rewrite <- (u64_small _ (lcg_iter_range a c n x Hx)).
  rewrite <- (u64_small x Hx) at 2.
  rewrite (lcg_iter_shift a t c c' n x Ha Hc), u64_eq_divide.
  replace (x - (x + geo a n * (2 * (2 * t * x + c') + 1)))
    with (- (geo a n * (2 * (2 * t * x + c') + 1))) by ring.
  rewrite Z.divide_opp_r.
  destruct (Nat.eq_dec n 0%nat) as [-> | Hn].
  - cbn [geo]. split; intros _; [apply Z.divide_0_r | apply Z.divide_0_r].
  - destruct (pow2_odd_split n ltac:(lia)) as (k & m & -> & Hm).
    destruct (geo_valuation a t k m Ha Hm) as [q ->].
    assert (Hmz : exists j, Z.of_nat m = 2 * j + 1).
    { apply Nat.odd_spec in Hm as [j Hj]. exists (Z.of_nat j). lia. }
    destruct Hmz as [j Hj].
    rewrite Nat2Z.inj_mul, Znat.Nat2Z.inj_pow, Hj. change (Z.of_nat 2) with 2.
    set (o := 2 * (2 * t * x + c') + 1).
    replace (2 ^ Z.of_nat k * (2 * q + 1) * o)
      with (2 ^ Z.of_nat k * (2 * (2 * q * (2 * t * x + c') + q + (2 * t * x + c')) + 1))
      by (subst o; ring).
    split; intros H; apply pow2_divide_odd in H; try lia.
    all: replace (Z.of_nat k) with (64 + (Z.of_nat k - 64)) by lia.
    all: rewrite Z.pow_add_r by lia.
    all: rewrite <- Z.mul_assoc; apply Z.divide_factor_l.
Qed.

Lemma step_fixes g n :
  wf g -> Z.odd (inc g) = true ->
  Nat.iter n step g = g <-> (2 ^ 64 | Z.of_nat n).
Proof.
  intros [Hst _] Hodd.
  rewrite <- (lcg_fixes PCG32_MULT _ (inc g) n (state g) PCG32_MULT_1_mod_4 Hodd Hst).
  rewrite step_iter. destruct g as [s i]. cbn [state inc].
  split; [now intros [= ->] | now intros ->].
Qed.

(** A multiple of [2 ^ 64] transitions is the identity, for every
    increment. *)
Lemma step_multiple_period g n :
  wf g -> (2 ^ 64 | Z.of_nat n) -> Nat.iter n step g = g.
Proof.
  intros Hg [z Hz].
  assert (Hz0 : 0 <= z) by lia.
  assert (Hn : n = (Z.to_nat z * 2 ^ 64)%nat).
  { rewrite <- to_nat_pow64, <- Z2Nat.inj_mul by lia. lia. }
  rewrite Hn. clear Hn Hz. generalize (Z.to_nat z). intros q.
  induction q as [| q IH]; [reflexivity |].
  replace (S q * 2 ^ 64)%nat with (2 ^ 64 + q * 2 ^ 64)%nat by (cbn [Nat.mul]; reflexivity).
  rewrite Nat.iter_add, IH. apply step_period, Hg.
Qed.

(** X1. The period is exactly [2 ^ 64]: after [n] calls of [nextUInt]
    a generator is back at its state whenever [2 ^ 64] divides [n], and,
    when its increment is odd, only then. *)
Theorem step_exact_period (g : pcg32) (n : nat) :
  wf g ->
  ((2 ^ 64 | Z.of_nat n) -> Nat.iter n step g = g)
  /\ (Z.odd (inc g) = true -> Nat.iter n step g = g -> (2 ^ 64 | Z.of_nat n)).
Proof.
  intros Hg. split.
  - now apply step_multiple_period.
  - intros Hodd. now apply step_fixes.
Qed.

Lemma step_exact_period_witness :
  Nat.iter 0 step pcg32_default = pcg32_default
  /\ (Nat.iter 1000 step pcg32_default = pcg32_default -> (2 ^ 64 | Z.of_nat 1000)).
Proof.
  split.
  - exact (proj1 (step_exact_period pcg32_default 0 ltac:(wf_tac)) (Z.divide_0_r _)).
  - exact (proj2 (step_exact_period pcg32_default 1000 ltac:(wf_tac)) eq_refl).
Defined.

(** Reaching a state takes fewer than [2 ^ 64] transitions. *)
Lemma step_reach_below g s :
  wf g -> Z.odd (inc g) = true -> is_u64 s ->
  exists n : nat,
    Z.of_nat n < 2 ^ 64 /\ Nat.iter n step g = {| state := s; inc := inc g |}.
Proof.
  intros Hg Hodd Hs.
  destruct (step_reach g s Hg Hodd Hs) as [n0 Hn0].
  assert (Hsplit : exists r q : nat,
    Z.of_nat r < 2 ^ 64 /\ (2 ^ 64 | Z.of_nat q) /\ n0 = (r + q)%nat).
  { pose proof (Z.div_mod (Z.of_nat n0) (2 ^ 64) ltac:(lia)) as Hdm.
    pose proof (Z.mod_pos_bound (Z.of_nat n0) (2 ^ 64) ltac:(lia)) as Hr.
    assert (Hq : 0 <= Z.of_nat n0 / 2 ^ 64) by (apply Z.div_pos; lia).
    exists (Z.to_nat (Z.of_nat n0 mod 2 ^ 64)),
           (Z.to_nat (2 ^ 64 * (Z.of_nat n0 / 2 ^ 64))).
    split; [lia |]. split; [| lia].
    rewrite Z2Nat.id by lia. apply Z.divide_factor_l. }
  destruct Hsplit as (r & q & Hr & Hq & ->).
  rewrite Nat.iter_add, (step_multiple_period g q Hg Hq) in Hn0.
  exists r. split; [exact Hr | exact Hn0].
Qed.

(** X2. Full period: from a generator with an odd increment every
    64-bit state is reached, after a number of calls of [nextUInt] below
    [2 ^ 64] that is unique. *)
Theorem step_orbit (g : pcg32) (s : Z) :
  wf g -> Z.odd (inc g) = true -> is_u64 s ->
  exists n : nat,
    Z.of_nat n < 2 ^ 64
    /\ Nat.iter n step g = {| state := s; inc := inc g |}
    /\ forall n' : nat,
         Z.of_nat n' < 2 ^ 64 ->
         Nat.iter n' step g = {| state := s; inc := inc g |} -> n' = n.
Proof.
  intros Hg Hodd Hs.
  destruct (step_reach_below g s Hg Hodd Hs) as (r & Hr & Hn0).
  exists r. split; [exact Hr |]. split; [exact Hn0 |].
  assert (Hsame : forall a b : nat,
    (a <= b)%nat -> Z.of_nat b < 2 ^ 64 ->
    Nat.iter a step g = Nat.iter b step g -> a = b).
  { intros a b Hab Hb Heq.
    replace b with ((b - a) + a)%nat in Heq by lia.
    rewrite Nat.iter_add in Heq. symmetry in Heq.
    apply step_fixes in Heq as [z Hz].
    - assert (z = 0) by nia. lia.
    - apply step_iter_wf, Hg.
    - now rewrite step_iter. }
  intros n' Hn' Heq.
  destruct (Nat.le_ge_cases n' r) as [Hle | Hle].
  - apply Hsame; [exact Hle | lia | congruence].
  - symmetry. apply Hsame; [exact Hle | lia | congruence].
Qed.

Lemma step_orbit_witness :
  exists n : nat,
    Z.of_nat n < 2 ^ 64
    /\ Nat.iter n step pcg32_default
       = {| state := top_state; inc := inc pcg32_default |}
    /\ forall n' : nat,
         Z.of_nat n' < 2 ^ 64 ->
         Nat.iter n' step pcg32_default
         = {| state := top_state; inc := inc pcg32_default |} -> n' = n.
Proof.
  exact (step_orbit pcg32_default top_state ltac:(wf_tac) eq_refl ltac:(wf_tac)).
Defined.

(** ** Every value is drawn *)

Lemma u32_high_bits x j : is_u32 x -> 32 <= j -> Z.testbit x j = false.
Proof.
  intros Hx Hj. rewrite <- (u32_small x Hx). unfold u32.
  apply Z.mod_pow2_bits_high. lia.
Qed.

Lemma u32_of_bits x :
  0 <= x -> (forall j, 32 <= j -> Z.testbit x j = false) -> is_u32 x.
Proof.
  intros Hx Hhigh. split; [exact Hx |].
  destruct (Z.eq_dec x 0) as [-> | Hne]; [lia |].
  apply Z.log2_lt_pow2; [lia |].
  destruct (Z_lt_dec (Z.log2 x) 32) as [| Hge]; [assumption | exfalso].
  assert (Hb : Z.testbit x (Z.log2 x) = true) by (apply Z.bit_log2; lia).
  rewrite Hhigh in Hb by lia. discriminate.
Qed.

Lemma u32_bits_eq x y :
  is_u32 x -> is_u32 y ->
  (forall i, 0 <= i < 32 -> Z.testbit x i = Z.testbit y i) -> x = y.
Proof.
  intros Hx Hy Hbits. apply Z.bits_inj'. intros i Hi.
  destruct (Z_lt_dec i 32) as [Hlt | Hge]; [apply Hbits; lia |].
  now rewrite !u32_high_bits by (assumption || lia).
Qed.

(** A state that draws [v]: the xorshift undone, top five bits zero. *)
Lemma output_preimage v c :
  is_u32 v ->
  let s := Z.shiftl (Z.lxor v (Z.shiftr v 18)) 27 in
  is_u64 s /\ output {| state := s; inc := c |} = v.
Proof.
  intros Hv s.
  set (t := Z.lxor v (Z.shiftr v 18)) in *.
  assert (Ht : is_u32 t).
  { apply u32_of_bits.
    - apply Z.lxor_nonneg. unfold is_u32 in Hv.
      pose proof (Z.shiftr_nonneg v 18). lia.
    - intros j Hj. subst t.
      rewrite Z.lxor_spec, Z.shiftr_spec by lia.
      now rewrite !u32_high_bits by (assumption || lia). }
  assert (Hs : is_u64 s).
  { subst s. rewrite Z.shiftl_mul_pow2 by lia. unfold is_u32 in Ht. unfold is_u64. lia. }
  split; [exact Hs |].
  assert (Hrot : Z.shiftr s 59 = 0).
  { subst s. rewrite Z.shiftr_div_pow2, Z.shiftl_mul_pow2 by lia.
    apply Z.div_small. unfold is_u32 in Ht. lia. }
  pose proof (output_rotr {| state := s; inc := c |} Hs) as [Hout Hbits].
  cbn [state] in Hbits. rewrite Hrot in Hbits.
  apply u32_bits_eq; [exact Hout | exact Hv |].
  intros i Hi. rewrite Hbits by lia.
  rewrite Z.add_0_r, Z.mod_small by lia.
  unfold u32. rewrite Z.mod_pow2_bits_low by lia.
  rewrite Z.shiftr_spec, Z.lxor_spec, Z.shiftr_spec by lia.
  subst s. rewrite !Z.shiftl_spec by lia.
  replace (i + 27 + 18 - 27) with (i + 18) by lia.
  replace (i + 27 - 27) with i by lia.
  subst t. rewrite !Z.lxor_spec, !Z.shiftr_spec by lia.
  rewrite (u32_high_bits v (i + 18 + 18)) by (assumption || lia).
  destruct (Z.testbit v (i + 18)), (Z.testbit v i); reflexivity.
Qed.

(** X3. With an odd increment every 32-bit value comes up: for each
    [v] some call of [nextUInt], among the first [2 ^ 64], returns [v]. *)
Theorem draw_every_value (g : pcg32) (v : Z) :
  wf g -> Z.odd (inc g) = true -> is_u32 v ->
  exists k : nat, Z.of_nat k < 2 ^ 64 /\ draw k g = v.
Proof.
  intros Hg Hodd Hv.
  destruct (output_preimage v (inc g) Hv) as [Hs Hout].
  destruct (step_reach_below g _ Hg Hodd Hs) as (k & Hk & Hreach).
  exists k. split; [exact Hk |]. unfold draw. now rewrite Hreach.
Qed.

Lemma draw_every_value_witness :
  exists k : nat, Z.of_nat k < 2 ^ 64 /\ draw k pcg32_default = 12345.
Proof.
  exact (draw_every_value pcg32_default 12345 ltac:(wf_tac) eq_refl ltac:(wf_tac)).
Defined.

(** ** The low bit of the state *)

Lemma u64_odd x : Z.odd (u64 x) = Z.odd x.
Proof.
  unfold u64. rewrite <- !Z.bit0_odd. apply Z.mod_pow2_bits_low. lia.
Qed.

Lemma step_low_bit g :
  Z.odd (state (step g)) = xorb (Z.odd (state g)) (Z.odd (inc g)).
Proof.
  unfold step, nextUInt. cbn [snd state].
  rewrite u64_odd, Z.odd_add, Z.odd_mul.
  change (Z.odd PCG32_MULT) with true. now rewrite andb_true_r.
Qed.

(** X4. The constructor takes any increment.  A call of [nextUInt]
    flips the low bit of the state when the increment is odd and leaves
    it when the increment is even: with an even increment the states of
    the other parity are never reached. *)
Theorem state_low_bit (st sq : Z) (n : nat) :
  Z.odd (state (Nat.iter n step (pcg32_new st sq)))
  = xorb (Z.odd st) (Nat.odd n && Z.odd sq).
Proof.
  unfold pcg32_new. induction n as [| n IH].
  - cbn. now destruct (Z.odd st).
  - rewrite Nat.iter_succ, step_low_bit, IH, step_iter. cbn [inc].
    rewrite Nat.odd_succ, <- Nat.negb_odd.
    destruct (Z.odd st), (Nat.odd n), (Z.odd sq); reflexivity.
Qed.

(** ** The bounded draw: termination, powers of two, no bias *)

Lemma threshold_value bound :
  0 < bound < 2 ^ 32 -> threshold bound = Ok (2 ^ 32 mod bound).
Proof.
  intros Hb. unfold threshold. rewrite umod_Ok, neg32_pos by lia.
  replace (2 ^ 32 - bound) with (2 ^ 32 + (-1) * bound) by ring.
  now rewrite Z.mod_add by lia.
Qed.

(** X5. With an odd increment the bounded draw returns, after at most
    [2 ^ 64] rounds, and a larger round budget returns the same. *)
Theorem nextUInt_bounded_terminates (bound : Z) (g : pcg32) :
  wf g -> Z.odd (inc g) = true -> 0 < bound < 2 ^ 32 ->
  exists (r : Z) (g' : pcg32) (fuel0 : nat),
    Z.of_nat fuel0 <= 2 ^ 64
    /\ 0 <= r < bound
    /\ forall fuel, (fuel0 <= fuel)%nat -> nextUInt_bounded fuel bound g = Ok (r, g').
Proof.
  intros Hg Hodd Hb.
  destruct (output_preimage (2 ^ 32 - 1) (inc g) ltac:(wf_tac)) as [Hs Hout].
  destruct (step_reach_below g _ Hg Hodd Hs) as (k & Hk & Hreach).
  assert (Htop : draw k g = 2 ^ 32 - 1) by (unfold draw; now rewrite Hreach).
  pose proof (threshold_value bound Hb) as Hthr.
  pose proof (Z.mod_pos_bound (2 ^ 32) bound ltac:(lia)) as Hlt.
  destruct (first_reach (2 ^ 32 mod bound) g k ltac:(lia)) as (j & Hj & Hjr & Hjb).
  exists (draw j g mod bound), (Nat.iter (S j) step g), (S j).
  split; [lia |].
  split; [apply Z.mod_pos_bound; lia |].
  intros fuel Hfuel. unfold nextUInt_bounded. rewrite Hthr. cbn.
  apply nextUInt_loop_first; try assumption; lia.
Qed.

Lemma nextUInt_bounded_terminates_witness :
  exists (r : Z) (g' : pcg32) (fuel0 : nat),
    Z.of_nat fuel0 <= 2 ^ 64
    /\ 0 <= r < 2 ^ 31 + 1
    /\ forall fuel, (fuel0 <= fuel)%nat ->
         nextUInt_bounded fuel (2 ^ 31 + 1) pcg32_default = Ok (r, g').
Proof.
  exact (nextUInt_bounded_terminates (2 ^ 31 + 1) pcg32_default
           ltac:(wf_tac) eq_refl ltac:(lia)).
Defined.

(** X6. A bound that is a power of two rejects nothing: the bounded
    draw makes one raw draw and returns its low bits. *)
Theorem nextUInt_bounded_pow2 (fuel : nat) (k : Z) (g : pcg32) :
  wf g -> 0 <= k < 32 -> (0 < fuel)%nat ->
  threshold (2 ^ k) = Ok 0
  /\ nextUInt_bounded fuel (2 ^ k) g = Ok (Z.land (output g) (2 ^ k - 1), step g).
Proof.
  intros Hg Hk Hfuel.
  assert (Hpos : 0 < 2 ^ k) by (apply Z.pow_pos_nonneg; lia).
  assert (Hlt : 2 ^ k < 2 ^ 32) by (apply Z.pow_lt_mono_r; lia).
  assert (Hthr : threshold (2 ^ k) = Ok 0).
  { rewrite threshold_value by lia. f_equal.
    replace (2 ^ 32) with (2 ^ (32 - k) * 2 ^ k)
      by (rewrite <- Z.pow_add_r by lia; f_equal; lia).
    apply Z.mod_mul. lia. }
  split; [exact Hthr |].
  unfold nextUInt_bounded. rewrite Hthr. cbn.
  destruct fuel as [| fuel]; [lia |].
  cbn [nextUInt_loop]. rewrite nextUInt_eta.
  pose proof (output_range g Hg) as Hout. unfold is_u32 in Hout.
  destruct (Z.leb_spec 0 (output g)); [| lia].
  rewrite umod_Ok by lia. cbn.
  replace (2 ^ k - 1) with (Z.ones k) by (rewrite Z.ones_equiv; lia).
  now rewrite Z.land_ones by lia.
Qed.

Lemma nextUInt_bounded_pow2_witness :
  nextUInt_bounded 1 (2 ^ 4) pcg32_default
  = Ok (Z.land (output pcg32_default) (2 ^ 4 - 1), step pcg32_default).
Proof.
  exact (proj2 (nextUInt_bounded_pow2 1 4 pcg32_default
                  ltac:(wf_tac) ltac:(lia) ltac:(lia))).
Defined.

(** X7. No modulo bias: the raw values at or above the threshold are
    [(2 ^ 32 / bound) * bound] in number, more than half of all, and
    every result [v] below [bound] comes from exactly [2 ^ 32 / bound]
    of them, one for each [q] below [2 ^ 32 / bound]. *)
Theorem threshold_unbiased (bound thr v r : Z) :
  0 < bound < 2 ^ 32 -> threshold bound = Ok thr -> 0 <= v < bound ->
  (0 <= thr < bound /\ 2 * thr < 2 ^ 32 /\ 2 ^ 32 - thr = 2 ^ 32 / bound * bound)
  /\ ((thr <= r < 2 ^ 32 /\ r mod bound = v)
      <-> exists q, 0 <= q < 2 ^ 32 / bound
                    /\ r = thr + (v - thr) mod bound + q * bound)
  /\ (forall q q',
        thr + (v - thr) mod bound + q * bound = thr + (v - thr) mod bound + q' * bound ->
        q = q').
Proof.
  intros Hb Hthr Hv.
  rewrite threshold_value in Hthr by lia. injection Hthr as <-.
  set (K := 2 ^ 32 / bound). set (thr := 2 ^ 32 mod bound).
  assert (Hdm : 2 ^ 32 = bound * K + thr) by (apply Z.div_mod; lia).
  assert (Hthr : 0 <= thr < bound) by (apply Z.mod_pos_bound; lia).
  assert (HK : 1 <= K) by (apply Z.div_le_lower_bound; lia).
  set (w := (v - thr) mod bound).
  assert (Hw : 0 <= w < bound) by (apply Z.mod_pos_bound; lia).
  assert (Hwv : (thr + w) mod bound = v).
  { subst w. rewrite Zplus_mod_idemp_r.
    replace (thr + (v - thr)) with v by ring. apply Z.mod_small. lia. }
  split; [repeat split; try lia; nia |]. split.
  - split.
    + intros [Hr Hrv].
      exists ((r - thr) / bound).
      assert (Hmod : (r - thr) mod bound = w).
      { subst w. rewrite <- Hrv, Zminus_mod_idemp_l. reflexivity. }
      pose proof (Z.div_mod (r - thr) bound ltac:(lia)) as Hdm'.
      rewrite Hmod in Hdm'.
      split; [| lia].
      split; [apply Z.div_pos; lia |].
      apply Z.div_lt_upper_bound; [lia | nia].
    + intros (q & Hq & ->). split; [nia |].
      rewrite Z.mod_add by lia. exact Hwv.
  - intros q q' Heq. nia.
Qed.

Lemma threshold_unbiased_witness :
  (0 <= 4 < 6 /\ 2 * 4 < 2 ^ 32 /\ 2 ^ 32 - 4 = 2 ^ 32 / 6 * 6)
  /\ ((4 <= 10 < 2 ^ 32 /\ 10 mod 6 = 4)
      <-> exists q, 0 <= q < 2 ^ 32 / 6 /\ 10 = 4 + (4 - 4) mod 6 + q * 6)
  /\ (forall q q',
        4 + (4 - 4) mod 6 + q * 6 = 4 + (4 - 4) mod 6 + q' * 6 -> q = q').
Proof.
  exact (threshold_unbiased 6 4 4 10 ltac:(lia) eq_refl ltac:(lia)).
Defined.

(** ** Jumps compose *)

Lemma advance_wf delta g : wf g -> wf (advance delta g).
Proof.
  intros Hg. rewrite advance_iter by apply Hg. now apply step_iter_wf.
Qed.

Lemma advance_add_iter a b g :
  wf g -> advance a (advance b g) = advance (a + b) g.
Proof.
  intros Hg.
  rewrite (advance_iter b g) by apply Hg.
  rewrite (advance_iter a) by (apply step_iter_wf, Hg).
  rewrite (advance_iter (a + b) g) by apply Hg.
  rewrite <- Nat.iter_add.
  pose proof (u64_range a) as Ha. pose proof (u64_range b) as Hb.
  pose proof (u64_range (a + b)) as Hab. unfold is_u64 in Ha, Hb, Hab.
  assert (Hsum : u64 a + u64 b = u64 (a + b) \/ u64 a + u64 b = u64 (a + b) + 2 ^ 64).
  { unfold u64 in *.
    pose proof (Z.div_mod a (2 ^ 64) ltac:(lia)).
    pose proof (Z.div_mod b (2 ^ 64) ltac:(lia)).
    pose proof (Z.div_mod (a + b) (2 ^ 64) ltac:(lia)). lia. }
  rewrite <- Z2Nat.inj_add by lia.
  destruct Hsum as [-> | ->]; [reflexivity |].
  rewrite Z2Nat.inj_add, to_nat_pow64, Nat.iter_add by lia.
  now rewrite step_period.
Qed.

(** X8. Jumps add up: [advance a] after [advance b] is [advance (a + b)],
    for deltas of either sign; [advance 0] changes nothing and jumps
    commute. *)
Theorem advance_add (a b : Z) (g : pcg32) :
  wf g ->
  advance a (advance b g) = advance (a + b) g
  /\ advance 0 g = g
  /\ advance a (advance b g) = advance b (advance a g).
Proof.
  intros Hg. split; [now apply advance_add_iter |]. split.
  - rewrite advance_iter by apply Hg. reflexivity.
  - rewrite !advance_add_iter by assumption. f_equal. ring.
Qed.

Lemma advance_add_witness :
  advance 7 (advance (-3) pcg32_default) = advance (7 + -3) pcg32_default.
Proof.
  exact (proj1 (advance_add 7 (-3) pcg32_default ltac:(wf_tac))).
Defined.

(** X9. Draws can be taken back: after [n] calls of [nextUInt],
    [advance (- n)] gives back the generator; so [nextUInt] never maps
    two generators of one stream to the same one. *)
Theorem advance_rewind (g : pcg32) (n : Z) :
  wf g -> 0 <= n <= 2 ^ 63 ->
  advance (- n) (Nat.iter (Z.to_nat n) step g) = g
  /\ advance (-1) (step g) = g
  /\ forall g', wf g' -> step g = step g' -> g = g'.
Proof.
  intros Hg Hn.
  assert (Hback : forall h, wf h -> advance (-1) (step h) = h).
  { intros h Hh. change (step h) with (Nat.iter (Z.to_nat (u64 1)) step h).
    rewrite <- advance_iter by apply Hh.
    rewrite advance_add_iter by assumption.
    rewrite advance_iter by apply Hh. reflexivity. }
  split; [| split].
  - replace (Z.to_nat n) with (Z.to_nat (u64 n))
      by (rewrite u64_small; [reflexivity | unfold is_u64; lia]).
    rewrite <- advance_iter by apply Hg.
    rewrite advance_add_iter by assumption.
    replace (- n + n) with 0 by ring.
    rewrite advance_iter by apply Hg. reflexivity.
  - now apply Hback.
  - intros g' Hg' Heq.
    rewrite <- (Hback g Hg), <- (Hback g' Hg'). now rewrite Heq.
Qed.

Lemma advance_rewind_witness :
  advance (- 1000) (Nat.iter (Z.to_nat 1000) step pcg32_default) = pcg32_default.
Proof.
  exact (proj1 (advance_rewind pcg32_default 1000 ltac:(wf_tac) ltac:(lia))).
Defined.

(** X10. [pcg_advance_lcg_64] is right for every multiplier and
    increment: it returns the state after [delta] transitions
    [x -> x * cur_mult + cur_plus] modulo [2 ^ 64], and the state itself
    when [delta] is [0]. *)
Theorem pcg_advance_lcg_64_correct (st delta cur_mult cur_plus : Z) :
  is_u64 st ->
  pcg_advance_lcg_64 st delta cur_mult cur_plus
  = Nat.iter (Z.to_nat delta) (fun x => (x * cur_mult + cur_plus) mod 2 ^ 64) st
  /\ is_u64 (pcg_advance_lcg_64 st delta cur_mult cur_plus)
  /\ (delta = 0 -> pcg_advance_lcg_64 st delta cur_mult cur_plus = st).
Proof.
  intros Hst. rewrite pcg_advance_lcg_64_spec by assumption.
  split; [reflexivity |]. split.
  - now apply lcg_iter_range.
  - now intros ->.
Qed.

Lemma pcg_advance_lcg_64_correct_witness :
  pcg_advance_lcg_64 12345 1000 3 7
  = Nat.iter (Z.to_nat 1000) (fun x => (x * 3 + 7) mod 2 ^ 64) 12345.
Proof.
  exact (proj1 (pcg_advance_lcg_64_correct 12345 1000 3 7 ltac:(wf_tac))).
Defined.

(** ** What the seeds select *)

Lemma lor_double_1 x : Z.lor (2 * x) 1 = 2 * x + 1.
Proof.
  apply Z.bits_inj'. intros i Hi. rewrite Z.lor_spec.
  destruct (Z.eq_dec i 0) as [-> | Hne].
  - rewrite Z.testbit_odd_0, Z.testbit_even_0. reflexivity.
  - rewrite (Z.bits_above_log2 1 i) by (change (Z.log2 1) with 0; lia).
    rewrite orb_false_r.
    replace i with (Z.succ (i - 1)) by lia.
    now rewrite Z.testbit_odd_succ, Z.testbit_even_succ by lia.
Qed.

Lemma shl64_1 q : shl64 q 1 = 2 * (q mod 2 ^ 63).
Proof.
  unfold shl64, u64. rewrite Z.shiftl_mul_pow2 by lia.
  change (2 ^ 1) with 2. change (2 ^ 64) with (2 * 2 ^ 63).
  rewrite (Z.mul_comm q 2). apply Z.mul_mod_distr_l; lia.
Qed.

(** The state that [seed] leaves, in closed form. *)
Lemma seed_state s q g :
  state (seed s q g)
  = u64 ((2 * (q mod 2 ^ 63) + 1 + s) * PCG32_MULT + (2 * (q mod 2 ^ 63) + 1)).
Proof.
  unfold seed, nextUInt. cbn [snd state inc].
  rewrite shl64_1, lor_double_1.
  generalize (2 * (q mod 2 ^ 63) + 1). intros i. u64_ring.
Qed.

Lemma seed_inc s q g : inc (seed s q g) = 2 * (q mod 2 ^ 63) + 1.
Proof.
  unfold seed, nextUInt. cbn [snd state inc]. now rewrite shl64_1, lor_double_1.
Qed.

(** X11. The stream selector loses its top bit: [seed] leaves the
    increment [2 * (initseq mod 2 ^ 63) + 1], so [initseq] and
    [initseq + 2 ^ 63] seed the same generator, and two selectors below
    [2 ^ 63] give different increments. *)
Theorem seed_stream (initstate initseq : Z) (g : pcg32) :
  inc (seed initstate initseq g) = 2 * (initseq mod 2 ^ 63) + 1
  /\ seed initstate (initseq + 2 ^ 63) g = seed initstate initseq g
  /\ forall initseq' g',
       0 <= initseq < 2 ^ 63 -> 0 <= initseq' < 2 ^ 63 ->
       inc (seed initstate initseq g) = inc (seed initstate initseq' g') ->
       initseq = initseq'.
Proof.
  split; [apply seed_inc |]. split.
  - assert (H : shl64 (initseq + 2 ^ 63) 1 = shl64 initseq 1).
    { rewrite !shl64_1. f_equal.
      replace (initseq + 2 ^ 63) with (initseq + 1 * 2 ^ 63) by ring.
      apply Z.mod_add. lia. }
    unfold seed. now rewrite H.
  - intros q' g' Hq Hq'. rewrite !seed_inc.
    rewrite !Z.mod_small by lia. lia.
Qed.

Lemma seed_stream_witness :
  seed 42 (54 + 2 ^ 63) pcg32_default = seed 42 54 pcg32_default.
Proof. exact (proj1 (proj2 (seed_stream 42 54 pcg32_default))). Defined.

(** X12. On each stream the state initializer is used in full: every
    64-bit state is what [seed] leaves for exactly one [initstate]. *)
Theorem seed_initstate_bijection (initseq : Z) (g : pcg32) (t : Z) :
  is_u64 t ->
  exists initstate,
    is_u64 initstate
    /\ state (seed initstate initseq g) = t
    /\ forall s' g', is_u64 s' -> state (seed s' initseq g') = t -> s' = initstate.
Proof.
  intros Ht. set (i := 2 * (initseq mod 2 ^ 63) + 1).
  set (s := u64 ((t - i) * 13877824140714322085 - i)).
  assert (Hs : is_u64 s) by apply u64_range.
  assert (Hseed : state (seed s initseq g) = t).
  { rewrite seed_state. fold i. rewrite <- (u64_small t Ht).
    transitivity (u64 ((i + ((t - i) * 13877824140714322085 - i)) * PCG32_MULT + i)).
    - subst s. clearbody i. u64_ring.
    - unfold u64, PCG32_MULT.
      replace ((i + ((t - i) * 13877824140714322085 - i)) * 6364136223846793005 + i)
        with (t + (t - i) * 4787856489426250814 * 2 ^ 64) by ring.
      apply Z.mod_add. lia. }
  exists s. split; [exact Hs |]. split; [exact Hseed |].
  intros s' g' Hs' Hseed'.
  rewrite <- Hseed, !seed_state in Hseed'. fold i in Hseed'.
  apply u64_eq_divide in Hseed'.
  replace ((i + s) * PCG32_MULT + i - ((i + s') * PCG32_MULT + i))
    with (PCG32_MULT * (s - s')) in Hseed' by ring.
  apply Z.gauss in Hseed'.
  - destruct Hseed' as [z Hz]. unfold is_u64 in Hs, Hs'.
    assert (z = 0) by nia. lia.
  - reflexivity.
Qed.

Lemma seed_initstate_bijection_witness :
  exists initstate,
    is_u64 initstate
    /\ state (seed initstate 1 pcg32_default) = top_state
    /\ forall s' g', is_u64 s' -> state (seed s' 1 g') = top_state -> s' = initstate.
Proof.
  exact (seed_initstate_bijection 1 pcg32_default top_state ltac:(wf_tac)).
Defined.

(** ** Rounding in binary32 and exactness in binary64 *)

Lemma digits2_lower p : 2 ^ (Zpos (digits2_pos p) - 1) <= Zpos p.
Proof.
  rewrite digits2_size. pose proof (Pos.size_le p) as Hle.
  assert (H : Zpos (2 ^ Pos.size p) <= Zpos p~0) by (apply Pos2Z.pos_le_pos; exact Hle).
  rewrite Pos2Z.inj_pow in H.
  replace (Zpos (Pos.size p)) with (Z.succ (Zpos (Pos.size p) - 1)) in H by lia.
  rewrite Z.pow_succ_r in H by lia. lia.
Qed.

Lemma digits2_upper p : Zpos p < 2 ^ Zpos (digits2_pos p).
Proof.
  rewrite digits2_size. pose proof (Pos.size_gt p) as Hgt.
  apply Pos2Z.pos_lt_pos in Hgt. now rewrite Pos2Z.inj_pow in Hgt.
Qed.

Lemma digits2_of_bounds p n :
  0 < n -> 2 ^ (n - 1) <= Zpos p < 2 ^ n -> Zpos (digits2_pos p) = n.
Proof.
  intros Hn [Hlo Hhi].
  pose proof (digits2_bound p n ltac:(lia) Hhi) as Hle.
  pose proof (digits2_upper p) as Hup.
  destruct (Z_lt_dec (Zpos (digits2_pos p)) n) as [Hlt | ]; [exfalso | lia].
  assert (2 ^ Zpos (digits2_pos p) <= 2 ^ (n - 1)) by (apply Z.pow_le_mono_r; lia).
  lia.
Qed.

Lemma shr_1_m mrs : 0 <= shr_m mrs -> shr_m (shr_1 mrs) = shr_m mrs / 2.
Proof.
  destruct mrs as [m r s]. cbn [shr_m]. intros Hm.
  rewrite <- Z.div2_div.
  destruct m as [| [p | p |] | p]; try reflexivity; lia.
Qed.

Lemma iter_shr_1_m k : forall mrs,
  0 <= shr_m mrs -> shr_m (SpecFloat.iter_pos shr_1 k mrs) = shr_m mrs / 2 ^ Zpos k.
Proof.
  induction k as [k IH | k IH |]; intros mrs Hm; cbn [SpecFloat.iter_pos].
  - assert (H1 : 0 <= shr_m (shr_1 mrs)) by (rewrite shr_1_m by lia; apply Z.div_pos; lia).
    assert (H2 : 0 <= shr_m (SpecFloat.iter_pos shr_1 k (shr_1 mrs)))
      by (rewrite IH by lia; apply Z.div_pos; lia).
    rewrite IH, IH, shr_1_m by lia.
    rewrite !Z.div_div by lia. f_equal.
    rewrite <- Z.pow_add_r, <- Z.pow_succ_r by lia. f_equal. lia.
  - assert (H2 : 0 <= shr_m (SpecFloat.iter_pos shr_1 k mrs))
      by (rewrite IH by lia; apply Z.div_pos; lia).
    rewrite IH, IH by lia.
    rewrite !Z.div_div by lia. f_equal.
    rewrite <- Z.pow_add_r by lia. f_equal. lia.
  - now rewrite shr_1_m.
Qed.

Lemma round_nearest_even_bounds m l :
  m <= round_nearest_even m l <= m + 1.
Proof.
  destruct l as [| []]; cbn [round_nearest_even]; try lia.
  destruct (Z.even m); lia.
Qed.

Lemma f32_round_aux_exact m e :
  Zpos (digits2_pos m) = 24 -> -149 <= e <= 104 ->
  binary_round_aux 24 128 false (Zpos m) e loc_Exact = S754_finite false m e.
Proof.
  intros Hd He. unfold binary_round_aux, shr_fexp, fexp, emin. cbn [Zdigits2 shr_record_of_loc].
  rewrite Hd.
  replace (Z.max (24 + e - 24) (3 - 128 - 24) - e) with 0 by lia.
  cbn [shr shr_m loc_of_shr_record round_nearest_even Zdigits2]. rewrite Hd.
  replace (Z.max (24 + e - 24) (3 - 128 - 24) - e) with 0 by lia.
  cbn [shr shr_m].
  destruct (Z.leb_spec e (128 - 24)); [reflexivity | lia].
Qed.

Lemma f32_round_normal m e :
  Zpos (digits2_pos m) = 24 -> -149 <= e <= 104 ->
  binary_round 24 128 false m e = S754_finite false m e.
Proof.
  intros Hd He. unfold binary_round, shl_align, fexp, emin. rewrite Hd.
  replace (Z.max (24 + e - 24) (3 - 128 - 24) - e) with 0 by lia.
  now apply f32_round_aux_exact.
Qed.

(** [(float) p] for a positive [p] below [2 ^ 32] is a normal number
    whose exponent is that of [p], or one more when the mantissa rounds
    up to [2 ^ 24]; that needs the top 24 bits of [p] all set. *)
Lemma f32_of_pos p :
  Zpos p < 2 ^ 32 ->
  exists m e,
    binary_round 24 128 false p 0 = S754_finite false m e
    /\ Zpos (digits2_pos m) = 24
    /\ Zpos (digits2_pos p) - 24 <= e <= Zpos (digits2_pos p) - 23
    /\ (Zpos p / 2 ^ 8 < 2 ^ 24 - 1 -> e <= 8).
Proof.
  intros Hp. pose proof (digits2_bound p 32 ltac:(lia) Hp) as Hd.
  pose proof (digits2_lower p) as Hlo. pose proof (digits2_upper p) as Hhi.
  set (d := Zpos (digits2_pos p)) in *.
  unfold binary_round, shl_align, fexp, emin. fold d.
  destruct (Z_le_gt_dec d 24) as [Hsmall | Hlarge].
  - destruct (Z.eq_dec d 24) as [H24 | Hne].
    + replace (Z.max (d + 0 - 24) (3 - 128 - 24) - 0) with 0 by lia.
      exists p, 0. rewrite f32_round_aux_exact by (fold d; lia).
      repeat split; try (fold d; lia).
    + replace (Z.max (d + 0 - 24) (3 - 128 - 24) - 0)
        with (Zneg (24 - digits2_pos p)) by (subst d; lia).
      assert (Hm : Zpos (digits2_pos (Pos.iter xO p (24 - digits2_pos p))) = 24)
        by (rewrite digits2_shift; subst d; lia).
      exists (Pos.iter xO p (24 - digits2_pos p)), (d - 24).
      replace (Z.max (d + 0 - 24) (3 - 128 - 24)) with (d - 24) by lia.
      rewrite f32_round_aux_exact by (trivial; lia).
      repeat split; try lia.
  - assert (Hk : exists k, d - 24 = Zpos k) by (exists (Z.to_pos (d - 24)); lia).
    destruct Hk as [k Hk].
    replace (Z.max (d + 0 - 24) (3 - 128 - 24) - 0) with (Zpos k) by lia.
    unfold binary_round_aux, shr_fexp, fexp, emin. cbn [Zdigits2 shr_record_of_loc].
    fold d.
    replace (Z.max (d + 0 - 24) (3 - 128 - 24) - 0) with (Zpos k) by lia.
    cbn [shr].
    set (mrs := SpecFloat.iter_pos shr_1 k {| shr_m := Zpos p; shr_r := false; shr_s := false |}).
    assert (Hq : shr_m mrs = Zpos p / 2 ^ Zpos k).
    { subst mrs. now rewrite iter_shr_1_m by (cbn; lia). }
    assert (Hqb : 2 ^ 23 <= shr_m mrs < 2 ^ 24).
    { rewrite Hq, <- Hk. split.
      - apply Z.div_le_lower_bound; [apply Z.pow_pos_nonneg; lia |].
        rewrite <- Z.pow_add_r by lia. replace (d - 24 + 23) with (d - 1) by lia. exact Hlo.
      - apply Z.div_lt_upper_bound; [apply Z.pow_pos_nonneg; lia |].
        rewrite <- Z.pow_add_r by lia. replace (d - 24 + 24) with d by lia. exact Hhi. }
    pose proof (round_nearest_even_bounds (shr_m mrs) (loc_of_shr_record mrs)) as Hrb.
    set (m1 := round_nearest_even (shr_m mrs) (loc_of_shr_record mrs)) in *.
    replace (0 + Zpos k) with (Zpos k) by lia.
    destruct m1 as [| m1p | m1p] eqn:Hm1; try lia.
    cbn [Zdigits2].
    destruct (Z_lt_dec (Zpos m1p) (2 ^ 24)) as [Hlt | Hge].
    + assert (Hdm : Zpos (digits2_pos m1p) = 24)
        by (apply digits2_of_bounds; [lia | change (24 - 1) with 23; lia]).
      rewrite Hdm.
      replace (Z.max (24 + Zpos k - 24) (3 - 128 - 24) - Zpos k) with 0 by lia.
      cbn [shr shr_m].
      destruct (Z.leb_spec (Zpos k) (128 - 24)); [| lia].
      exists m1p, (Zpos k). repeat split; try lia.
    + assert (Hm24 : m1p = 16777216%positive) by lia. subst m1p.
      change (Zpos (digits2_pos 16777216)) with 25.
      replace (Z.max (25 + Zpos k - 24) (3 - 128 - 24) - Zpos k) with 1 by lia.
      cbn [shr SpecFloat.iter_pos shr_1 shr_m orb].
      destruct (Z.leb_spec (Zpos k + 1) (128 - 24)); [| lia].
      exists 8388608%positive, (Zpos k + 1).
      split; [reflexivity |]. split; [reflexivity |]. split; [lia |].
      intros Hsmall.
      assert (d = 32 \/ d < 32) as [Hd32 | Hd32] by lia; [exfalso | lia].
      assert (Hk8 : Zpos k = 8) by lia. rewrite Hk8 in Hq. lia.
Qed.

Lemma float_scaled_table r :
  2 ^ 32 - 256 <= r < 2 ^ 32 - 128 ->
  Float.in_unit_f (Float.ldexpf (Float.float_of_uint r) (-32)) = true.
Proof.
  intros Hr.
  assert (Hall : forallb
            (fun k => Float.in_unit_f
                        (Float.ldexpf (Float.float_of_uint (2 ^ 32 - 256 + Z.of_nat k)) (-32)))
            (seq 0 128) = true) by (vm_compute; reflexivity).
  rewrite forallb_forall in Hall.
  specialize (Hall (Z.to_nat (r - (2 ^ 32 - 256)))).
  replace (2 ^ 32 - 256 + Z.of_nat (Z.to_nat (r - (2 ^ 32 - 256)))) with r in Hall by lia.
  apply Hall, in_seq. lia.
Qed.

Lemma float_scaled_in_unit r :
  0 <= r < 2 ^ 32 - 128 ->
  Float.in_unit_f (Float.ldexpf (Float.float_of_uint r) (-32)) = true.
Proof.
  intros Hr. destruct r as [| p | p]; [reflexivity | | lia].
  destruct (f32_of_pos p ltac:(lia)) as (m & e & Heq & Hm & He & Hsmall).
  pose proof (digits2_bound p 32 ltac:(lia) ltac:(lia)) as Hd.
  destruct (Z_le_gt_dec e 8) as [He8 | He9].
  - unfold Float.float_of_uint, Float.ldexpf, Float.prec32, Float.emax32.
    cbn [binary_normalize]. rewrite Heq. cbn [SFldexp].
    rewrite f32_round_normal by (trivial; lia).
    unfold Float.in_unit_f, SFleb, SFltb. cbn [SFcompare Float.zero andb].
    change Float.onef with (S754_finite false 8388608 (-23)).
    cbn [SFcompare].
    destruct (Z.compare_spec (e + -32) (-23)); [lia | reflexivity | lia].
  - apply float_scaled_table.
    assert (Hq : 2 ^ 24 - 1 <= Zpos p / 2 ^ 8) by lia.
    pose proof (Z.div_mod (Zpos p) (2 ^ 8) ltac:(lia)) as Hdm.
    pose proof (Z.mod_pos_bound (Zpos p) (2 ^ 8) ltac:(lia)). lia.
Qed.

(** X13. [nextFloat] returns a value in [[0, 1]]: a value in [[0, 1)]
    when the raw draw is below [2 ^ 32 - 128], and exactly [1.0] for the
    128 raw draws from [2 ^ 32 - 128] on, which the conversion to
    [float] rounds up to [2 ^ 32].  It advances the generator like one
    call of [nextUInt]. *)
Theorem nextFloat_range (g : pcg32) :
  wf g ->
  (output g < 2 ^ 32 - 128 -> Float.in_unit_f (fst (nextFloat g)) = true)
  /\ (2 ^ 32 - 128 <= output g -> fst (nextFloat g) = Float.onef)
  /\ snd (nextFloat g) = step g.
Proof.
  intros Hg. pose proof (output_range g Hg) as Hr. unfold is_u32 in Hr.
  unfold nextFloat. rewrite nextUInt_eta. cbn [fst snd].
  split; [| split; [| reflexivity]].
  - intros Hlt. apply float_scaled_in_unit. lia.
  - intros Hge. apply float_scaled_one. lia.
Qed.

Lemma nextFloat_range_witness :
  Float.in_unit_f (fst (nextFloat pcg32_default)) = true.
Proof.
  exact (proj1 (nextFloat_range pcg32_default ltac:(wf_tac)) eq_refl).
Defined.

Lemma iter_xO_value p k : Zpos (Pos.iter xO p k) = Zpos p * 2 ^ Zpos k.
Proof.
  induction k as [| k IH] using Pos.peano_ind.
  - cbn [Pos.iter]. rewrite Pos2Z.inj_xO. change (2 ^ 1) with 2. ring.
  - rewrite Pos.iter_succ, Pos2Z.inj_xO, IH, Pos2Z.inj_succ, Z.pow_succ_r by lia. ring.
Qed.

Lemma f64_of_pos p :
  Zpos p < 2 ^ 32 ->
  binary_round 53 1024 false p 0
  = S754_finite false (Pos.iter xO p (53 - digits2_pos p)) (Zpos (digits2_pos p) - 53).
Proof.
  intros Hp. pose proof (digits2_bound p 32 ltac:(lia) Hp) as Hd.
  unfold binary_round, shl_align, fexp, emin.
  replace (Z.max (Z.pos (digits2_pos p) + 0 - 53) (3 - 1024 - 53) - 0)
    with (Zneg (53 - digits2_pos p)) by lia.
  replace (Z.max (Z.pos (digits2_pos p) + 0 - 53) (3 - 1024 - 53))
    with (Zpos (digits2_pos p) - 53) by lia.
  apply binary_round_aux_exact; [rewrite digits2_shift; lia | lia].
Qed.

(** X14. [nextDouble] is exact and stays in [[0, 1)]: it returns [0.0]
    for the raw draw [0] and otherwise the binary64 number
    [m * 2 ^ e] with [m = r * 2 ^ (- (e + 32))], that is [r / 2 ^ 32]
    for the raw draw [r].  It advances the generator like one call of
    [nextUInt]. *)
Theorem nextDouble_exact (g : pcg32) :
  wf g ->
  Float.in_unit (fst (nextDouble g)) = true
  /\ snd (nextDouble g) = step g
  /\ (output g = 0 -> fst (nextDouble g) = Float.zero)
  /\ (0 < output g ->
      exists m e,
        fst (nextDouble g) = S754_finite false m e
        /\ e + 32 <= -21
        /\ Zpos m = output g * 2 ^ (- (e + 32))).
Proof.
  intros Hg. pose proof (output_range g Hg) as Hr. unfold is_u32 in Hr.
  split; [now apply nextDouble_in_unit |].
  unfold nextDouble. rewrite nextUInt_eta. cbn [fst snd].
  split; [reflexivity |]. split.
  - now intros ->.
  - intros Hpos. destruct (output g) as [| p | p]; try lia.
    pose proof (digits2_bound p 32 ltac:(lia) ltac:(lia)) as Hd.
    unfold Float.double_of_uint, Float.ldexp, Float.prec64, Float.emax64.
    cbn [binary_normalize]. rewrite f64_of_pos by lia. cbn [SFldexp].
    rewrite binary_round_normal by (rewrite ?digits2_shift; lia).
    eexists _, _. split; [reflexivity |]. split; [lia |].
    rewrite iter_xO_value. f_equal. f_equal. lia.
Qed.

Lemma nextDouble_exact_witness :
  Float.in_unit (fst (nextDouble pcg32_default)) = true.
Proof.
  exact (proj1 (nextDouble_exact pcg32_default ltac:(wf_tac))).
Defined.

(** ** Sequences too long for [shuffle] *)

(** X15. [shuffle] never returns on a sequence of [2 ^ 32] elements or
    more, whatever the generator: before it could, the bound
    [(uint32_t)(it - begin + 1)] gets to [0]. *)
Theorem shuffle_large {A : Type} (fuel : nat) (g : pcg32) (l : list A) :
  2 ^ 32 <= Z.of_nat (length l) ->
  forall v, shuffle fuel g l <> Ok v.
Proof.
  intros Hlen v.
  rewrite shuffle_nonempty by (intros ->; cbn in Hlen; lia).
  apply shuffle_loop_large. lia.
Qed.

Lemma shuffle_large_witness :
  Z.of_nat (length (replicate (Z.to_nat (2 ^ 32 + 5)) 0)) = 2 ^ 32 + 5
  /\ forall v, shuffle 8 pcg32_default (replicate (Z.to_nat (2 ^ 32 + 5)) 0) <> Ok v.
Proof.
  assert (Hlen : Z.of_nat (length (replicate (Z.to_nat (2 ^ 32 + 5)) 0)) = 2 ^ 32 + 5).
  { rewrite length_replicate. apply Z2Nat.id. lia. }
  split; [exact Hlen |].
  apply (shuffle_large 8 pcg32_default (replicate (Z.to_nat (2 ^ 32 + 5)) 0)).
  rewrite Hlen. lia.
Defined.
